(** * The operational substrate of the assistant backend

    A shallow embedding of three in-process components of the backend:

    - [LoadBalancer]   (backend/api/endpoints/performance.py)
    - [CacheManager]   (backend/api/endpoints/performance.py)
    - [AuthMiddleware] (backend/api/auth/auth_middleware.py), the rate
      limiter and IP guard, with the tables of
      backend/config/firebase_config.py

    Python objects are modelled as follows.  A [dict] whose iteration
    order is observed is an insertion-ordered association list ([odict]);
    a [dict] or [set] that is only looked up is a [gmap] or [gset]; a
    Python [int] is a [Z]; a [datetime] is a number of microseconds since
    the epoch, inside the range that [datetime] can represent.  A method
    that can raise returns an [outcome], paired with the state the object
    is left in. *)

From Stdlib Require Import ZArith String List.
From stdpp Require Import gmap strings list fin_maps.

Local Open Scope string_scope.
Local Open Scope list_scope.
Local Open Scope Z_scope.

(** ** Python primitives *)

Module Py.

(** Exceptions deriving from Python's [Exception]. *)
Inductive exn : Type :=
| KeyError
| IndexError
| ValueError
| OverflowError
| TypeError
| JSONDecodeError
| BackendError (msg : string).

(** What a call does: it returns, or it raises. *)
Inductive outcome (A : Type) : Type :=
| Return (a : A)
| Raise (e : exn).
Arguments Return {A} a.
Arguments Raise {A} e.

(** [l[i]] for a Python int [i]: a negative index counts from the
    end, an index out of range raises [IndexError] (here [None]). *)
Definition index {A} (l : list A) (i : Z) : option A :=
  let n := Z.of_nat (length l) in
  if 0 <=? i then l !! Z.to_nat i
  else if - n <=? i then l !! Z.to_nat (n + i)
  else None.

(** An insertion-ordered [dict] from [str] to [A]: keys are unique and
    kept in the order of their first insertion. *)
Definition odict (A : Type) : Type := list (string * A).

(** [d.get(k)] *)
Fixpoint od_get {A} (k : string) (d : odict A) : option A :=
  match d with
  | [] => None
  | (k', v) :: d' => if String.eqb k' k then Some v else od_get k d'
  end.

(** [d[k] = v]: an existing key keeps its place, a new one goes last. *)
Fixpoint od_set {A} (k : string) (v : A) (d : odict A) : odict A :=
  match d with
  | [] => [(k, v)]
  | (k', v') :: d' =>
      if String.eqb k' k then (k', v) :: d' else (k', v') :: od_set k v d'
  end.

(** [{k: v for k in keys}] *)
Definition od_fromkeys {A} (keys : list string) (v : A) : odict A :=
  fold_left (fun d k => od_set k v d) keys [].

(** [min(d, key=d.get)] for counts: the keys are visited in iteration
    order and the candidate is replaced only by a strictly smaller
    count, so the first key with the least count wins.  On an empty
    dict [min] raises [ValueError] (here [None]). *)
Fixpoint min_from (best : string) (bestv : Z) (rest : odict Z) : string :=
  match rest with
  | [] => best
  | (k, v) :: rest' =>
      if v <? bestv then min_from k v rest' else min_from best bestv rest'
  end.

Definition od_min (d : odict Z) : option string :=
  match d with
  | [] => None
  | (k, v) :: rest => Some (min_from k v rest)
  end.

(** [tag in key] on strings: [tag] occurs in [key] as a substring. *)
Fixpoint contains (tag key : string) : bool :=
  String.prefix tag key ||
  match key with
  | EmptyString => false
  | String _ key' => contains tag key'
  end.

(** A [datetime]: microseconds since 1970-01-01T00:00:00, between
    [datetime.min] (0001-01-01T00:00:00) and [datetime.max]
    (9999-12-31T23:59:59.999999). *)
Definition time : Type := Z.
Definition datetime_min : time := -62135596800000000.
Definition datetime_max : time := 253402300799999999.

(** [timedelta(seconds=n)] in microseconds; more than 999999999 days
    either way raise [OverflowError] (here [None]). *)
Definition timedelta_seconds (n : Z) : option Z :=
  if (-999999999 <=? n / 86400) && (n / 86400 <=? 999999999)
  then Some (n * 1000000) else None.

(** [d + delta]: a result outside the range of [datetime] raises
    [OverflowError] (here [None]). *)
Definition datetime_add (d : time) (delta : Z) : option time :=
  if (datetime_min <=? d + delta) && (d + delta <=? datetime_max)
  then Some (d + delta) else None.

(** [d + timedelta(seconds=n)] and [d - timedelta(seconds=n)] *)
Definition plus_seconds (d : time) (n : Z) : option time :=
  match timedelta_seconds n with
  | None => None
  | Some delta => datetime_add d delta
  end.

Definition minus_seconds (d : time) (n : Z) : option time :=
  match timedelta_seconds n with
  | None => None
  | Some delta => datetime_add d (- delta)
  end.

End Py.

Import Py.

(** ** LoadBalancer *)

Module LoadBalancer.

(** One entry of [self.services]. *)
Record service : Type := Service {
  instances : list string;
  algorithm : string;
  current_index : Z;
  health_status : gmap string bool
}.

(** The object: [self.services] and [self.active_connections].  (The
    attribute [self.current_index] of the class is never read or
    written after the constructor and is left out.) *)
Record t : Type := Make {
  services : gmap string service;
  active_connections : gmap string (odict Z)
}.

(** [LoadBalancer()] *)
Definition init : t := Make ∅ ∅.

Definition register_service
    (service_name : string) (insts : list string) (alg : string) (self : t) : t :=
  {| services :=
       <[service_name :=
           {| instances := insts;
              algorithm := alg;
              current_index := 0;
              health_status := fold_left (fun m i => <[i := true]> m) insts ∅ |}]>
         (services self);
     active_connections :=
       <[service_name := od_fromkeys insts 0]> (active_connections self) |}.

(** [self.active_connections[service_name][instance] += 1], then
    [return instance]. *)
Definition select (service_name instance : string) (self : t)
  : outcome (option string) * t :=
  match active_connections self !! service_name with
  | None => (Raise KeyError, self)
  | Some conns =>
      match od_get instance conns with
      | None => (Raise KeyError, self)
      | Some c =>
          (Return (Some instance),
           {| services := services self;
              active_connections :=
                <[service_name := od_set instance (c + 1) conns]>
                  (active_connections self) |})
      end
  end.

Definition get_next_instance (service_name : string) (self : t)
  : outcome (option string) * t :=
  match services self !! service_name with
  | None => (Return None, self)
  | Some svc =>
      match instances svc with
      | [] => (Return None, self)
      | _ :: _ =>
          if String.eqb (algorithm svc) "round_robin" then
            match index (instances svc) (current_index svc) with
            | None => (Raise IndexError, self)
            | Some instance =>
                let svc' :=
                  {| instances := instances svc;
                     algorithm := algorithm svc;
                     current_index :=
                       (current_index svc + 1) `mod` Z.of_nat (length (instances svc));
                     health_status := health_status svc |} in
                select service_name instance
                  {| services := <[service_name := svc']> (services self);
                     active_connections := active_connections self |}
            end
          else if String.eqb (algorithm svc) "least_connections" then
            match active_connections self !! service_name with
            | None => (Raise KeyError, self)
            | Some conns =>
                match od_min conns with
                | None => (Raise ValueError, self)
                | Some min_instance => select service_name min_instance self
                end
            end
          else
            match index (instances svc) 0 with
            | None => (Raise IndexError, self)
            | Some instance => select service_name instance self
            end
      end
  end.

Definition release_instance (service_name instance : string) (self : t) : t :=
  match active_connections self !! service_name with
  | None => self
  | Some conns =>
      match od_get instance conns with
      | None => self
      | Some c =>
          {| services := services self;
             active_connections :=
               <[service_name := od_set instance (Z.max 0 (c - 1)) conns]>
                 (active_connections self) |}
      end
  end.

(** What one liveness probe ([client.get(instance)] inside the [try])
    does: it answers with a status code, or something raises. *)
Inductive probe_result : Type :=
| Response (status_code : Z)
| ProbeRaised (e : exn).

(** The value stored for one probe: [resp.status_code == 200], and
    [False] from the [except] branch. *)
Definition probe_healthy (r : probe_result) : bool :=
  match r with
  | Response status_code => status_code =? 200
  | ProbeRaised _ => false
  end.

(** The loop of [health_check]; [probe n instance] is the result of
    the [n]-th probe of the pass, sent to [instance]. *)
Fixpoint probe_all (probe : nat -> string -> probe_result) (n : nat)
    (insts : list string) (hs : gmap string bool) : gmap string bool :=
  match insts with
  | [] => hs
  | instance :: rest =>
      probe_all probe (S n) rest
        (<[instance := probe_healthy (probe n instance)]> hs)
  end.

Definition health_check (probe : nat -> string -> probe_result)
    (service_name : string) (self : t) : t :=
  match services self !! service_name with
  | None => self
  | Some svc =>
      {| services :=
           <[service_name :=
               {| instances := instances svc;
                  algorithm := algorithm svc;
                  current_index := current_index svc;
                  health_status :=
                    probe_all probe 0 (instances svc) (health_status svc) |}]>
             (services self);
         active_connections := active_connections self |}
  end.

(** Calls of the methods, and a run of such calls on one object.  An
    exception leaves the object as the method left it and the next
    call goes on from there. *)
Inductive op : Type :=
| Register (service_name : string) (insts : list string) (alg : string)
| Next (service_name : string)
| Release (service_name instance : string)
| HealthCheck (probe : nat -> string -> probe_result) (service_name : string).

Definition step (self : t) (o : op) : t :=
  match o with
  | Register n insts alg => register_service n insts alg self
  | Next n => snd (get_next_instance n self)
  | Release n i => release_instance n i self
  | HealthCheck probe n => health_check probe n self
  end.

Definition run (ops : list op) (self : t) : t := fold_left step ops self.

(** Is some call of the run answered by an exception? *)
Fixpoint raises (ops : list op) (self : t) : bool :=
  match ops with
  | [] => false
  | o :: ops' =>
      match o with
      | Next n =>
          match fst (get_next_instance n self) with
          | Raise _ => true
          | Return _ => raises ops' (step self o)
          end
      | _ => raises ops' (step self o)
      end
  end.

End LoadBalancer.

(** ** CacheManager *)

Module CacheManager.

(** An item as the IronCache client returns it. *)
Record item : Type := Item { item_value : string }.

Section Manager.

(** Python values other than [None]; a Python value is an
    [option V], with [None] for [None]. *)
Context {V : Type}.

(** [json.dumps] and [json.loads], which raise on what they cannot
    encode or decode. *)
Variable json_dumps : option V -> outcome string.
Variable json_loads : string -> outcome (option V).

(** The IronCache client, an external service: [R] is whatever state
    it keeps, and each call answers (or raises) as the service
    pleases, by the clock and that state.  [client_list_keys] is
    [None] when the client class has no attribute [list_keys]. *)
Context {R : Type}.
Variable client_get : time -> string -> string -> R -> outcome (option item) * R.
Variable client_put : time -> string -> string -> string -> Z -> R -> outcome unit * R.
Variable client_delete : time -> string -> string -> R -> outcome unit * R.
Variable client_list_keys : option (time -> string -> R -> outcome (list string) * R).

(** One value of [self.memory_cache]. *)
Record entry : Type := Entry {
  value : option V;
  expires_at : time
}.

Record t : Type := Make {
  iron_available : bool;
  client : option R;
  cache_name : string;
  memory_cache : gmap string entry;
  key_registry : gset string
}.

Definition with_client (self : t) (r : R) : t :=
  {| iron_available := iron_available self;
     client := Some r;
     cache_name := cache_name self;
     memory_cache := memory_cache self;
     key_registry := key_registry self |}.

(** [self.memory_cache.pop(key, None)] *)
Definition memory_pop (key : string) (self : t) : t :=
  {| iron_available := iron_available self;
     client := client self;
     cache_name := cache_name self;
     memory_cache := base.delete key (memory_cache self);
     key_registry := key_registry self |}.

(** [self.key_registry.add(key)] *)
Definition registry_add (key : string) (self : t) : t :=
  {| iron_available := iron_available self;
     client := client self;
     cache_name := cache_name self;
     memory_cache := memory_cache self;
     key_registry := {[ key ]} ∪ key_registry self |}.

(** [self.key_registry.discard(key)] *)
Definition registry_discard (key : string) (self : t) : t :=
  {| iron_available := iron_available self;
     client := client self;
     cache_name := cache_name self;
     memory_cache := memory_cache self;
     key_registry := key_registry self ∖ {[ key ]} |}.

(** [self.iron_available and self.client is not None] *)
Definition iron_client (self : t) : option R :=
  if iron_available self then client self else None.

(** The body of the [try] of [get], at clock reading [now]. *)
Definition get_try (now : time) (key : string) (self : t)
  : outcome (option V) * t :=
  match iron_client self with
  | Some r =>
      match client_get now (cache_name self) key r with
      | (Raise e, r') => (Raise e, with_client self r')
      | (Return it, r') =>
          (match it with
           | Some (Item v) =>
               if String.eqb v "" then Return None else json_loads v
           | None => Return None
           end, with_client self r')
      end
  | None =>
      match memory_cache self !! key with
      | Some e =>
          if expires_at e >? now then (Return (value e), self)
          else (Return None, self)
      | None => (Return None, self)
      end
  end.

(** [get]: the [except Exception] branch prints and returns [None]. *)
Definition get (now : time) (key : string) (self : t)
  : outcome (option V) * t :=
  match get_try now key self with
  | (Raise _, self') => (Return None, self')
  | r => r
  end.

(** The body of the [try] of [set]. *)
Definition set_try (now : time) (key : string) (v : option V) (ttl : Z)
    (tags : option (list string)) (self : t) : outcome unit * t :=
  match iron_client self with
  | Some r =>
      match json_dumps v with
      | Raise e => (Raise e, self)
      | Return payload =>
          match client_put now (cache_name self) key payload ttl r with
          | (Raise e, r') => (Raise e, with_client self r')
          | (Return _, r') => (Return tt, registry_add key (with_client self r'))
          end
      end
  | None =>
      match plus_seconds now ttl with
      | None => (Raise OverflowError, self)
      | Some expiry =>
          (Return tt,
           registry_add key
             {| iron_available := iron_available self;
                client := client self;
                cache_name := cache_name self;
                memory_cache :=
                  <[key := {| value := v; expires_at := expiry |}]> (memory_cache self);
                key_registry := key_registry self |})
      end
  end.

(** [set] returns nothing; an exception inside is printed and dropped. *)
Definition set (now : time) (key : string) (v : option V) (ttl : Z)
    (tags : option (list string)) (self : t) : t :=
  snd (set_try now key v ttl tags self).

Definition delete_try (now : time) (key : string) (self : t) : outcome unit * t :=
  match iron_client self with
  | Some r =>
      match client_delete now (cache_name self) key r with
      | (o, r') => (o, with_client self r')
      end
  | None => (Return tt, memory_pop key self)
  end.

Definition delete (now : time) (key : string) (self : t) : t :=
  snd (delete_try now key self).

(** [list_keys] has no [try]: what the client raises goes to the
    caller.  [hasattr(self.client, "list_keys")] needs a client whose
    class has the method.  The order of [list(self.key_registry)] is
    that of the set's iteration. *)
Definition list_keys (now : time) (self : t) : outcome (list string) * t :=
  match iron_client self, client_list_keys with
  | Some r, Some lk =>
      match lk now (cache_name self) r with
      | (o, r') => (o, with_client self r')
      end
  | _, _ => (Return (elements (key_registry self)), self)
  end.

(** The loop of [invalidate_by_tag] and of [clear_all]: [hit key]
    says whether [key] is removed.  A raising [client.delete] ends
    the loop and goes to the caller. *)
Fixpoint remove_keys (hit : string -> bool) (now : time)
    (keys : list string) (self : t) : outcome unit * t :=
  match keys with
  | [] => (Return tt, self)
  | key :: rest =>
      if hit key then
        match iron_client self with
        | Some r =>
            match client_delete now (cache_name self) key r with
            | (Raise e, r') => (Raise e, with_client self r')
            | (Return _, r') => remove_keys hit now rest (with_client self r')
            end
        | None =>
            remove_keys hit now rest (registry_discard key (memory_pop key self))
        end
      else remove_keys hit now rest self
  end.

Definition invalidate_by_tag (now : time) (tag : string) (self : t)
  : outcome unit * t :=
  match list_keys now self with
  | (Raise e, self') => (Raise e, self')
  | (Return keys, self') => remove_keys (contains tag) now keys self'
  end.

Definition clear_all (now : time) (self : t) : outcome unit * t :=
  match list_keys now self with
  | (Raise e, self') => (Raise e, self')
  | (Return keys, self') => remove_keys (fun _ => true) now keys self'
  end.

End Manager.

Arguments entry : clear implicits.
Arguments t : clear implicits.

(** [CacheManager()] without the IronCache credentials in the
    environment: the process-local store. *)
Definition init_memory {V R} : t V R :=
  {| iron_available := false;
     client := None;
     cache_name := "default-cache";
     memory_cache := ∅;
     key_registry := ∅ |}.

End CacheManager.

(** ** AuthMiddleware: rate limiter and IP guard *)

Module AuthMiddleware.

(** One value of [RATE_LIMITS]. *)
Record policy : Type := Policy {
  requests : Z;
  window : Z
}.

(** [RATE_LIMITS] of config/firebase_config.py. *)
Definition RATE_LIMITS : gmap string policy :=
  list_to_map
    [ ("/auth/register", Policy 5 3600);
      ("/auth/login", Policy 10 300);
      ("/auth/reset-password", Policy 3 3600);
      ("/auth/2fa/verify", Policy 5 300);
      ("/chat/general", Policy 100 3600);
      ("/chat/general/guest", Policy 10 3600);
      ("default", Policy 100 3600) ].

(** [SECURITY_CONFIG['ip_block_duration']], in seconds. *)
Definition ip_block_duration : Z := 86400.

(** A row of the table [ip_blocklist] and a row of [rate_limits]. *)
Record block_row : Type := BlockRow {
  block_ip_address : string;
  block_reason : string;
  blocked_until : time;
  block_created_at : time
}.

Record rate_row : Type := RateRow {
  rate_ip_address : string;
  rate_endpoint : string;
  count : Z;
  created_at : time
}.

(** The two tables of the hosted database, rows in insertion order.
    The database is taken to answer every query; each helper below
    has an [except] branch for a query that raises, which returns the
    value noted with it. *)
Record db : Type := Db {
  ip_blocklist : list block_row;
  rate_limits : list rate_row
}.

(** The readings the clock gives during one call: [datetime.utcnow()]
    and [datetime.now(timezone.utc)] read [utc], the naive
    [datetime.now()] reads [local]. *)
Record clock : Type := Clock {
  utc : time;
  local : time
}.

(** The clock of a server whose local time is UTC. *)
Definition utc_clock (t : time) : clock := Clock t t.

(** What [check_rate_limit] looks at in the request. *)
Record request : Type := Request {
  client_host : option string;
  url_path : string
}.

(** [return True], or [raise HTTPException(status_code, detail)]. *)
Inductive verdict : Type :=
| Allowed
| Rejected (status_code : Z) (detail : string).

(** [is_ip_blocked]: the first row of the IP decides; an expired block
    is deleted.  ([except]: [False].) *)
Definition is_ip_blocked (c : clock) (ip_address : string) (d : db) : bool * db :=
  match filter (fun r => block_ip_address r = ip_address) (ip_blocklist d) with
  | [] => (false, d)
  | block_data :: _ =>
      if blocked_until block_data >? utc c then (true, d)
      else (false,
            {| ip_blocklist :=
                 filter (fun r => block_ip_address r ≠ ip_address) (ip_blocklist d);
               rate_limits := rate_limits d |})
  end.

(** [upsert] on [ip_blocklist], whose key is [ip_address]: the row of
    that IP is replaced, or the row is added. *)
Fixpoint upsert (row : block_row) (rows : list block_row) : list block_row :=
  match rows with
  | [] => [row]
  | r :: rows' =>
      if decide (block_ip_address r = block_ip_address row) then row :: rows'
      else r :: upsert row rows'
  end.

(** [block_ip]; an [OverflowError] of the date arithmetic lands in the
    [except] branch, which prints and goes on. *)
Definition block_ip (c : clock) (ip_address reason : string) (d : db) : db :=
  match plus_seconds (utc c) ip_block_duration with
  | None => d
  | Some until =>
      {| ip_blocklist :=
           upsert
             {| block_ip_address := ip_address;
                block_reason := reason;
                blocked_until := until;
                block_created_at := utc c |}
             (ip_blocklist d);
         rate_limits := rate_limits d |}
  end.

(** [get_rate_limit_count]: the sum of [count] over the rows of the
    pair created at or after [window_start].  ([except]: [0].) *)
Definition get_rate_limit_count
    (ip_address endpoint : string) (window_start : time) (d : db) : Z :=
  foldr Z.add 0
    (count <$>
       filter (fun r => rate_ip_address r = ip_address
                        ∧ rate_endpoint r = endpoint
                        ∧ window_start ≤ created_at r)
              (rate_limits d)).

Definition increment_rate_limit (c : clock) (ip_address endpoint : string) (d : db) : db :=
  {| ip_blocklist := ip_blocklist d;
     rate_limits :=
       rate_limits d ++
       [ {| rate_ip_address := ip_address;
            rate_endpoint := endpoint;
            count := 1;
            created_at := utc c |} ] |}.

(** [check_rate_limit], with the table [RATE_LIMITS] as its first
    argument.  An exception other than [HTTPException] inside the
    [try] (the [KeyError] of a table without ["default"], the
    [OverflowError] of the date arithmetic) makes it return [True]. *)
Definition check_rate_limit (limits : gmap string policy) (c : clock)
    (req : request) (endpoint : option string) (d : db) : verdict * db :=
  let ip_address := default "unknown" (client_host req) in
  let endpoint_str := default (url_path req) endpoint in
  match is_ip_blocked c ip_address d with
  | (true, d1) => (Rejected 429 "IP address blocked", d1)
  | (false, d1) =>
      match limits !! "default" with
      | None => (Allowed, d1)
      | Some fallback =>
          let rate_limit := default fallback (limits !! endpoint_str) in
          let max_requests := requests rate_limit in
          match minus_seconds (local c) (window rate_limit) with
          | None => (Allowed, d1)
          | Some window_start =>
              let current_count :=
                get_rate_limit_count ip_address endpoint_str window_start d1 in
              if current_count >=? max_requests then
                (Rejected 429 "Rate limit exceeded",
                 block_ip c ip_address "rate_limit_exceeded" d1)
              else
                (Allowed, increment_rate_limit c ip_address endpoint_str d1)
          end
      end
  end.

(** Successive calls for one request and endpoint, one clock reading
    each: the verdicts in order, and the database at the end. *)
Fixpoint calls (limits : gmap string policy) (req : request)
    (endpoint : option string) (clocks : list clock) (d : db)
  : list verdict * db :=
  match clocks with
  | [] => ([], d)
  | c :: rest =>
      let '(v, d1) := check_rate_limit limits c req endpoint d in
      let '(vs, d2) := calls limits req endpoint rest d1 in
      (v :: vs, d2)
  end.

End AuthMiddleware.

(** ** Invariants of the load balancer *)

Module LoadBalancerInv.
Import LoadBalancer.

(** A service entry and its connection counts agree: the cursor is a
    position of the instance list (or [0] for an empty list), the
    counts are kept for the registered instances, in the order of
    their first occurrence, and none is negative. *)
Definition service_ok (svc : service) (conns : odict Z) : Prop :=
  0 ≤ current_index svc
  ∧ (instances svc ≠ [] → current_index svc < Z.of_nat (length (instances svc)))
  ∧ (instances svc = [] → current_index svc = 0)
  ∧ conns.*1 = (od_fromkeys (instances svc) 0).*1
  ∧ Forall (λ kv, 0 ≤ kv.2) conns.

(** Every registered service has its counts, and counts are kept for
    registered services only. *)
Definition wf (self : t) : Prop :=
  (∀ name svc, services self !! name = Some svc →
     ∃ conns, active_connections self !! name = Some conns ∧ service_ok svc conns)
  ∧ (∀ name, services self !! name = None → active_connections self !! name = None).

(** [svc] with its cursor moved to [i]. *)
Definition with_index (svc : service) (i : Z) : service :=
  {| instances := instances svc;
     algorithm := algorithm svc;
     current_index := i;
     health_status := health_status svc |}.

(** The answers of [n] successive calls of [get_next_instance]. *)
Fixpoint next_n (n : nat) (service_name : string) (self : t)
  : list (outcome (option string)) * t :=
  match n with
  | O => ([], self)
  | S n' =>
      let '(r, self1) := get_next_instance service_name self in
      let '(rs, self2) := next_n n' service_name self1 in
      (r :: rs, self2)
  end.

End LoadBalancerInv.

(** ** Concrete settings used in examples *)

Module Scenario.

(** Probes for the isolation scenario: ["http://b:1"] raises, the rest
    answer 200. *)
Definition probes_b_down (i : string) : LoadBalancer.probe_result :=
  if String.eqb i "http://b:1"
  then LoadBalancer.ProbeRaised (BackendError "connect")
  else LoadBalancer.Response 200.

(** 2025-11-03T00:00:00, in microseconds. *)
Definition t0 : time := 1762128000000000.

(** An IronCache service that cannot be reached: every call raises. *)
Definition down_get (now : time) (cache key : string) (r : unit)
  : outcome (option CacheManager.item) * unit :=
  (Raise (BackendError "connection refused"), r).

Definition down_put (now : time) (cache key payload : string) (ttl : Z) (r : unit)
  : outcome unit * unit :=
  (Raise (BackendError "connection refused"), r).

Definition down_delete (now : time) (cache key : string) (r : unit)
  : outcome unit * unit :=
  (Raise (BackendError "connection refused"), r).

(** A JSON codec that knows [null] only; anything else raises. *)
Definition dumps (v : option Z) : outcome string :=
  match v with
  | None => Return "null"
  | Some _ => Raise TypeError
  end.

Definition loads (payload : string) : outcome (option Z) :=
  if String.eqb payload "null" then Return None else Raise JSONDecodeError.

(** A manager configured for IronCache, and the operations of a
    manager on the process-local store. *)
Definition iron_manager : CacheManager.t Z unit :=
  {| CacheManager.iron_available := true;
     CacheManager.client := Some tt;
     CacheManager.cache_name := "default-cache";
     CacheManager.memory_cache := ∅;
     CacheManager.key_registry := ∅ |}.

Definition get := CacheManager.get (V := Z) loads down_get.
Definition set := CacheManager.set (V := Z) dumps down_put.
Definition delete := CacheManager.delete (V := Z) down_delete.
Definition list_keys := CacheManager.list_keys (V := Z) (R := unit) None.
Definition invalidate_by_tag :=
  CacheManager.invalidate_by_tag (V := Z) down_delete None.


(** A table with the policy of five requests per minute for ["/x"]. *)
Definition limits_5_60 : gmap string AuthMiddleware.policy :=
  <["/x" := AuthMiddleware.Policy 5 60]> AuthMiddleware.RATE_LIMITS.

Definition req : AuthMiddleware.request :=
  AuthMiddleware.Request (Some "203.0.113.7") "/x".

(** [t0] plus [n] seconds. *)
Definition after (n : Z) : time := t0 + n * 1000000.

End Scenario.

(** ** Further notions for the load balancer *)

Module LoadBalancerMore.
Import LoadBalancer.

(** The connections a service holds: the sum of its counts. *)
Definition total (conns : odict Z) : Z :=
  foldr (fun kv acc => kv.2 + acc) 0 conns.

(** The counts of a service are level: no two differ by more than one. *)
Definition level (conns : odict Z) : Prop :=
  ∀ i j ci cj, od_get i conns = Some ci → od_get j conns = Some cj → ci - cj ≤ 1.

End LoadBalancerMore.

(** ** Runs of the cache manager, and the caching decorator *)

Module CacheManagerMore.
Import CacheManager.

Section Run.

Context {V R : Type}.
Variable json_dumps : option V -> outcome string.
Variable json_loads : string -> outcome (option V).
Variable client_get : time -> string -> string -> R -> outcome (option item) * R.
Variable client_put : time -> string -> string -> string -> Z -> R -> outcome unit * R.
Variable client_delete : time -> string -> string -> R -> outcome unit * R.
Variable client_list_keys : option (time -> string -> R -> outcome (list string) * R).

(** Calls of the methods, each at its clock reading, and a run of such
    calls on one manager.  The two methods that can raise leave the
    manager as they left it. *)
Inductive op : Type :=
| CallGet (now : time) (key : string)
| CallSet (now : time) (key : string) (v : option V) (ttl : Z) (tags : option (list string))
| CallDelete (now : time) (key : string)
| CallInvalidateByTag (now : time) (tag : string)
| CallClearAll (now : time).

Definition step (self : t V R) (o : op) : t V R :=
  match o with
  | CallGet now key => snd (get json_loads client_get now key self)
  | CallSet now key v ttl tags => set json_dumps client_put now key v ttl tags self
  | CallDelete now key => delete client_delete now key self
  | CallInvalidateByTag now tag =>
      snd (invalidate_by_tag client_delete client_list_keys now tag self)
  | CallClearAll now => snd (clear_all client_delete client_list_keys now self)
  end.

Definition run (ops : list op) (self : t V R) : t V R := fold_left step ops self.

(** Every key with an entry in the process-local store is registered. *)
Definition registered (self : t V R) : Prop :=
  ∀ key, is_Some (memory_cache self !! key) → key ∈ key_registry self.

(** The [wrapper] that [cache_response(ttl, key_prefix)] puts around an
    endpoint function.  [cache_key] is the key the wrapper builds from
    the prefix, the name of the function and the hash of the
    arguments; [func] is the call of the wrapped function on its
    arguments, in a world [W]; [now_get] and [now_set] are the clock
    readings of the lookup and of the store. *)
Definition wrapper {W : Type} (ttl : Z) (cache_key : string)
    (func : W -> outcome (option V) * W) (now_get now_set : time)
    (self : t V R) (w : W) : outcome (option V) * t V R * W :=
  match get json_loads client_get now_get cache_key self with
  | (Raise e, self1) => (Raise e, self1, w)
  | (Return (Some cached_value), self1) => (Return (Some cached_value), self1, w)
  | (Return None, self1) =>
      match func w with
      | (Raise e, w1) => (Raise e, self1, w1)
      | (Return result, w1) =>
          (Return result,
           set json_dumps client_put now_set cache_key result ttl None self1, w1)
      end
  end.

End Run.

End CacheManagerMore.

(** ** More concrete settings *)

Module Examples.

(** A manager configured for IronCache that has registered one key. *)
Definition iron_with_key : CacheManager.t Z unit :=
  {| CacheManager.iron_available := true;
     CacheManager.client := Some tt;
     CacheManager.cache_name := "default-cache";
     CacheManager.memory_cache := ∅;
     CacheManager.key_registry := {[ "user:1:profile" ]} |}.

(** An IronCache service that deletes whatever it is asked to. *)
Definition ok_delete (now : time) (cache key : string) (r : unit)
  : outcome unit * unit :=
  (Return tt, r).

(** A wrapped endpoint function that counts its runs and returns 42,
    and one that returns [None]. *)
Definition answer_42 (runs : nat) : outcome (option Z) * nat :=
  (Return (Some 42), S runs).

Definition answer_none (runs : nat) : outcome (option Z) * nat :=
  (Return None, S runs).

(** The decorator on the process-local store of [Scenario]. *)
Definition wrapper :=
  CacheManagerMore.wrapper (V := Z) (R := unit) (W := nat)
    Scenario.dumps Scenario.loads Scenario.down_get Scenario.down_put.

(** Runs of a manager on the process-local store of [Scenario]. *)
Definition run :=
  CacheManagerMore.run (V := Z) (R := unit)
    Scenario.dumps Scenario.loads Scenario.down_get Scenario.down_put
    Scenario.down_delete None.

(** A database in which the IP of [Scenario.req] has five requests for
    ["/x"] on record, all made at [Scenario.t0]. *)
Definition five_requests : AuthMiddleware.db :=
  AuthMiddleware.Db []
    (replicate 5 (AuthMiddleware.RateRow "203.0.113.7" "/x" 1 Scenario.t0)).

(** A request from another IP. *)
Definition other_req : AuthMiddleware.request :=
  AuthMiddleware.Request (Some "198.51.100.9") "/x".

(** [RATE_LIMITS] with the ["default"] entry taken out. *)
Definition limits_no_default : gmap string AuthMiddleware.policy :=
  base.delete "default" AuthMiddleware.RATE_LIMITS.

End Examples.

(** ** An IronCache service with an outage *)

Module Outage.

(** [json.dumps] and [json.loads] on [None] and the booleans. *)
Definition dumps (v : option bool) : outcome string :=
  match v with
  | None => Return "null"
  | Some true => Return "true"
  | Some false => Return "false"
  end.

Definition loads (payload : string) : outcome (option bool) :=
  if String.eqb payload "null" then Return None
  else if String.eqb payload "true" then Return (Some true)
  else if String.eqb payload "false" then Return (Some false)
  else Raise JSONDecodeError.

(** The service keeps, for each key, the payload and the time at which
    it expires. *)
Definition items : Type := gmap string (string * time).

(** It cannot be reached from 10 to 20 seconds after [Scenario.t0]. *)
Definition unreachable (now : time) : bool :=
  (Scenario.after 10 <=? now) && (now <? Scenario.after 20).

Definition service_get (now : time) (cache key : string) (r : items)
  : outcome (option CacheManager.item) * items :=
  if unreachable now then (Raise (BackendError "connection refused"), r)
  else
    match r !! key with
    | Some (payload, expires) =>
        if expires >? now then (Return (Some (CacheManager.Item payload)), r)
        else (Return None, r)
    | None => (Return None, r)
    end.

Definition service_put (now : time) (cache key payload : string) (ttl : Z)
    (r : items) : outcome unit * items :=
  if unreachable now then (Raise (BackendError "connection refused"), r)
  else (Return tt, <[key := (payload, now + ttl * 1000000)]> r).

Definition service_delete (now : time) (cache key : string) (r : items)
  : outcome unit * items :=
  if unreachable now then (Raise (BackendError "connection refused"), r)
  else (Return tt, base.delete key r).


Definition get := CacheManager.get loads service_get.
Definition set := CacheManager.set dumps service_put.
Definition list_keys := CacheManager.list_keys (V := bool) (R := items) None.
Definition invalidate_by_tag :=
  CacheManager.invalidate_by_tag (V := bool) service_delete None.


End Outage.

(** * Properties *)

(** ** Insertion-ordered dicts *)

Section OdictFacts.

Context {A : Type}.
Implicit Types (d : odict A) (k : string) (v : A).

Lemma od_get_set_eq d k v : od_get k (od_set k v d) = Some v.
Proof.
  induction d as [|[k' v'] d IH]; simpl.
  - by rewrite String.eqb_refl.
  - destruct (String.eqb_spec k' k) as [->|Hne]; simpl.
    + by rewrite String.eqb_refl.
    + destruct (String.eqb_spec k' k); [done | exact IH].
Qed.

Lemma od_get_set_ne d k k' v : k ≠ k' → od_get k' (od_set k v d) = od_get k' d.
Proof.
  intros Hne. induction d as [|[k0 v0] d IH]; simpl.
  - destruct (String.eqb_spec k k'); [done | reflexivity].
  - destruct (String.eqb_spec k0 k) as [->|Hk0]; simpl.
    + destruct (String.eqb_spec k k'); [done | reflexivity].
    + by rewrite IH.
Qed.

Lemma od_get_keys d k : is_Some (od_get k d) ↔ k ∈ d.*1.
Proof.
  induction d as [|[k' v'] d IH]; simpl.
  - split; [intros [? ?]; discriminate | intros H; inversion H].
  - destruct (String.eqb_spec k' k) as [->|Hne].
    + split; [intros _; left | intros _; eauto].
    + rewrite IH. split; [by right | ].
      intros H. inversion H; subst; [done | assumption].
Qed.

Lemma od_set_keys_present d k v : k ∈ d.*1 → (od_set k v d).*1 = d.*1.
Proof.
  induction d as [|[k' v'] d IH]; simpl; intros Hin.
  - inversion Hin.
  - destruct (String.eqb_spec k' k) as [->|Hne]; simpl; [done |].
    f_equal. apply IH. inversion Hin; subst; [done | assumption].
Qed.

Lemma od_set_keys_fresh d k v : k ∉ d.*1 → (od_set k v d).*1 = d.*1 ++ [k].
Proof.
  induction d as [|[k' v'] d IH]; simpl; intros Hin; [done |].
  destruct (String.eqb_spec k' k) as [->|Hne]; simpl.
  - exfalso. apply Hin. left.
  - f_equal. apply IH. intros H. apply Hin. by right.
Qed.

Lemma od_set_keys_elem d k k' v : k' ∈ (od_set k v d).*1 ↔ k' = k ∨ k' ∈ d.*1.
Proof.
  destruct (decide (k ∈ d.*1)) as [Hin|Hout].
  - rewrite od_set_keys_present by done. split; [by right | intros [->|?]; done].
  - rewrite od_set_keys_fresh by done. rewrite elem_of_app, list_elem_of_singleton.
    tauto.
Qed.

Lemma od_set_NoDup d k v : NoDup d.*1 → NoDup (od_set k v d).*1.
Proof.
  intros Hnd. destruct (decide (k ∈ d.*1)) as [Hin|Hout].
  - by rewrite od_set_keys_present.
  - rewrite od_set_keys_fresh by done. apply NoDup_app. split; [done |].
    split; [| apply NoDup_singleton].
    intros x Hx Hx'. apply list_elem_of_singleton in Hx'. by subst.
Qed.

Lemma od_set_Forall (P : string * A → Prop) d k v :
  P (k, v) → (∀ v', P (k, v') → P (k, v)) → Forall P d → Forall P (od_set k v d).
Proof.
  intros Hkv _ Hd. induction Hd as [|[k' v'] d Hx Hd IH]; simpl.
  - by constructor.
  - destruct (String.eqb_spec k' k) as [->|Hne]; constructor; done.
Qed.

Lemma od_get_elem d k v : od_get k d = Some v → (k, v) ∈ d.
Proof.
  induction d as [|[k' v'] d IH]; simpl; [discriminate |].
  destruct (String.eqb_spec k' k) as [->|Hne].
  - intros [= ->]. left.
  - intros H. right. by apply IH.
Qed.

Lemma od_get_split d1 d2 k v :
  k ∉ d1.*1 → od_get k (d1 ++ (k, v) :: d2) = Some v.
Proof.
  induction d1 as [|[k' v'] d1 IH]; simpl; intros Hout.
  - by rewrite String.eqb_refl.
  - destruct (String.eqb_spec k' k) as [->|Hne].
    + exfalso. apply Hout. left.
    + apply IH. intros H. apply Hout. by right.
Qed.

Lemma od_set_split d1 d2 k v v' :
  k ∉ d1.*1 → od_set k v' (d1 ++ (k, v) :: d2) = d1 ++ (k, v') :: d2.
Proof.
  induction d1 as [|[k0 v0] d1 IH]; simpl; intros Hout.
  - by rewrite String.eqb_refl.
  - destruct (String.eqb_spec k0 k) as [->|Hne].
    + exfalso. apply Hout. left.
    + f_equal. apply IH. intros H. apply Hout. by right.
Qed.

Lemma od_fromkeys_from (keys : list string) v d0 :
  let d := fold_left (λ d k, od_set k v d) keys d0 in
  (∀ k, k ∈ d.*1 ↔ k ∈ d0.*1 ∨ k ∈ keys) ∧ (NoDup d0.*1 → NoDup d.*1) ∧
  (∀ P : string * A → Prop, (∀ k, P (k, v)) → Forall P d0 → Forall P d).
Proof.
  revert d0. induction keys as [|k keys IH]; intros d0; simpl.
  - split; [| done]. intros k. split; [by left | intros [?|H]; [done | inversion H]].
  - destruct (IH (od_set k v d0)) as (Hk & Hnd & HP). split; [| split].
    + intros k'. rewrite Hk, od_set_keys_elem, elem_of_cons. tauto.
    + intros H. apply Hnd. by apply od_set_NoDup.
    + intros P HPv Hd0. apply HP; [done |]. apply od_set_Forall; auto.
Qed.

Lemma od_fromkeys_keys (keys : list string) v k :
  k ∈ (od_fromkeys keys v).*1 ↔ k ∈ keys.
Proof.
  unfold od_fromkeys. destruct (od_fromkeys_from keys v []) as (Hk & _ & _).
  rewrite Hk. simpl. split; [intros [H|?]; [inversion H | done] | by right].
Qed.

Lemma od_fromkeys_NoDup (keys : list string) v : NoDup (od_fromkeys keys v).*1.
Proof.
  unfold od_fromkeys. destruct (od_fromkeys_from keys v []) as (_ & Hnd & _).
  apply Hnd. constructor.
Qed.

Lemma od_fromkeys_Forall (P : string * A → Prop) (keys : list string) v :
  (∀ k, P (k, v)) → Forall P (od_fromkeys keys v).
Proof.
  intros HP. unfold od_fromkeys. destruct (od_fromkeys_from keys v []) as (_ & _ & H).
  apply H; [done | constructor].
Qed.

End OdictFacts.

(** [min_from] finds the first entry with the least count. *)
Lemma min_from_spec (rest pre mid : odict Z) (best : string) (bestv : Z) :
  Forall (λ kv, bestv < kv.2) pre →
  Forall (λ kv, bestv ≤ kv.2) mid →
  ∃ pre' c post',
    pre ++ (best, bestv) :: mid ++ rest = pre' ++ (min_from best bestv rest, c) :: post'
    ∧ Forall (λ kv, c < kv.2) pre' ∧ Forall (λ kv, c ≤ kv.2) post'.
Proof.
  revert pre mid best bestv.
  induction rest as [|[k v] rest IH]; intros pre mid best bestv Hpre Hmid; simpl.
  - exists pre, bestv, mid. by rewrite app_nil_r.
  - destruct (Z.ltb_spec v bestv) as [Hlt|Hge].
    + destruct (IH (pre ++ (best, bestv) :: mid) [] k v) as (pre' & c & post' & Heq & H1 & H2).
      * apply Forall_app. split; [| constructor].
        -- eapply Forall_impl; [exact Hpre | simpl; intros; lia].
        -- simpl. lia.
        -- eapply Forall_impl; [exact Hmid | simpl; intros; lia].
      * constructor.
      * exists pre', c, post'. split; [| done].
        rewrite <- Heq. simpl. by rewrite <- app_assoc.
    + destruct (IH pre (mid ++ [(k, v)]) best bestv) as (pre' & c & post' & Heq & H1 & H2).
      * done.
      * apply Forall_app. split; [done |]. constructor; [simpl; lia | constructor].
      * exists pre', c, post'. split; [| done].
        rewrite <- Heq. by rewrite <- app_assoc.
Qed.

Lemma od_min_spec (d : odict Z) :
  d ≠ [] →
  ∃ pre k c post,
    od_min d = Some k ∧ d = pre ++ (k, c) :: post
    ∧ Forall (λ kv, c < kv.2) pre ∧ Forall (λ kv, c ≤ kv.2) post.
Proof.
  destruct d as [|[k v] rest]; [done |]. intros _. simpl.
  destruct (min_from_spec rest [] [] k v) as (pre' & c & post' & Heq & H1 & H2);
    [constructor | constructor |].
  exists pre', (min_from k v rest), c, post'. done.
Qed.

(** ** The load balancer keeps its invariant *)

Section LoadBalancerFacts.

Import LoadBalancer LoadBalancerInv.

Lemma wf_init : wf init.
Proof.
  split; [intros name svc H; simpl in H; by rewrite lookup_empty in H |].
  intros name _. apply lookup_empty.
Qed.

Lemma service_ok_fresh insts alg hs :
  service_ok (Service insts alg 0 hs) (od_fromkeys insts 0).
Proof.
  repeat split; simpl; try done.
  - intros H. destruct insts; [done | simpl; lia].
  - apply od_fromkeys_Forall. simpl. lia.
Qed.

Lemma wf_register name insts alg self :
  wf self → wf (register_service name insts alg self).
Proof.
  intros [Hwf Hdom]. unfold register_service. split; intros n; simpl.
  - intros svc. destruct (decide (name = n)) as [->|Hne].
    + rewrite !lookup_insert_eq. intros [= <-]. eexists. split; [done |].
      apply service_ok_fresh.
    + rewrite !lookup_insert_ne by done. apply Hwf.
  - destruct (decide (name = n)) as [->|Hne].
    + by rewrite lookup_insert_eq.
    + rewrite !lookup_insert_ne by done. apply Hdom.
Qed.

Lemma wf_update name svc' conns' self :
  wf self → service_ok svc' conns' →
  wf {| services := <[name := svc']> (services self);
        active_connections := <[name := conns']> (active_connections self) |}.
Proof.
  intros [Hwf Hdom] Hok. split; intros n; simpl.
  - intros svc. destruct (decide (name = n)) as [->|Hne].
    + rewrite !lookup_insert_eq. intros [= <-]. eauto.
    + rewrite !lookup_insert_ne by done. apply Hwf.
  - destruct (decide (name = n)) as [->|Hne].
    + by rewrite lookup_insert_eq.
    + rewrite !lookup_insert_ne by done. apply Hdom.
Qed.

Lemma wf_update_conns name svc conns' self :
  wf self → services self !! name = Some svc → service_ok svc conns' →
  wf {| services := services self;
        active_connections := <[name := conns']> (active_connections self) |}.
Proof.
  intros [Hwf Hdom] Hsvc Hok. split; intros n; simpl.
  - intros svc'. destruct (decide (name = n)) as [->|Hne].
    + rewrite lookup_insert_eq. intros H. rewrite Hsvc in H. injection H as <-. eauto.
    + rewrite lookup_insert_ne by done. apply Hwf.
  - destruct (decide (name = n)) as [->|Hne].
    + by rewrite Hsvc.
    + rewrite lookup_insert_ne by done. apply Hdom.
Qed.

(** Changing the count of a registered instance to a non-negative
    value, and moving the cursor inside the list, keep [service_ok]. *)
Lemma service_ok_set svc conns inst c i :
  service_ok svc conns → inst ∈ conns.*1 → 0 ≤ c →
  0 ≤ i → (instances svc ≠ [] → i < Z.of_nat (length (instances svc))) →
  (instances svc = [] → i = 0) →
  service_ok (with_index svc i) (od_set inst c conns).
Proof.
  intros (H0 & Hlt & Hnil & Hkeys & Hpos) Hin Hc Hi0 Hilt Hinil.
  repeat split; simpl; try done.
  - by rewrite od_set_keys_present.
  - apply od_set_Forall; [simpl; lia | done | done].
Qed.

Lemma with_index_id svc : with_index svc (current_index svc) = svc.
Proof. by destruct svc. Qed.

Lemma service_ok_instance svc conns inst :
  service_ok svc conns → inst ∈ instances svc →
  inst ∈ conns.*1 ∧ ∃ c, od_get inst conns = Some c ∧ 0 ≤ c.
Proof.
  intros (_ & _ & _ & Hkeys & Hpos) Hin.
  assert (Hk : inst ∈ conns.*1) by (rewrite Hkeys; by apply od_fromkeys_keys).
  split; [done |]. apply od_get_keys in Hk as [c Hc]. exists c. split; [done |].
  apply od_get_elem in Hc. rewrite Forall_forall in Hpos. apply (Hpos _ Hc).
Qed.

Lemma service_ok_NoDup svc conns : service_ok svc conns → NoDup conns.*1.
Proof. intros (_ & _ & _ & -> & _). apply od_fromkeys_NoDup. Qed.

(** [round_robin]: the instance at the cursor, and the cursor moves on. *)
Lemma next_round_robin name svc conns self :
  services self !! name = Some svc →
  active_connections self !! name = Some conns → service_ok svc conns →
  instances svc ≠ [] → algorithm svc = "round_robin" →
  ∃ inst c,
    instances svc !! Z.to_nat (current_index svc) = Some inst
    ∧ od_get inst conns = Some c ∧ 0 ≤ c
    ∧ get_next_instance name self =
        (Return (Some inst),
         {| services :=
              <[name := with_index svc
                          ((current_index svc + 1) `mod` Z.of_nat (length (instances svc)))]>
                (services self);
            active_connections :=
              <[name := od_set inst (c + 1) conns]> (active_connections self) |}).
Proof.
  intros Hsvc Hconns Hok Hne Halg.
  pose proof Hok as (H0 & Hlt & _).
  specialize (Hlt Hne).
  destruct (lookup_lt_is_Some_2 (instances svc) (Z.to_nat (current_index svc)))
    as [inst Hinst]; [lia |].
  destruct (service_ok_instance _ _ inst Hok) as (_ & c & Hc & Hc0).
  { eapply list_elem_of_lookup_2; eauto. }
  exists inst, c. repeat split; try done.
  unfold get_next_instance. rewrite Hsvc.
  destruct (instances svc) as [|i0 l] eqn:Hl; [done |].
  rewrite Halg. simpl String.eqb. cbv iota.
  unfold index. destruct (Z.leb_spec 0 (current_index svc)); [| lia].
  rewrite Hinst. unfold select; simpl. rewrite Hconns, Hc.
  unfold with_index. by rewrite Hl, Halg.
Qed.

(** [least_connections]: the first instance, in the iteration order of
    the counts, whose count is least. *)
Lemma next_least_connections name svc conns self :
  services self !! name = Some svc →
  active_connections self !! name = Some conns → service_ok svc conns →
  instances svc ≠ [] → algorithm svc = "least_connections" →
  ∃ pre inst c post,
    conns = pre ++ (inst, c) :: post
    ∧ inst ∈ instances svc ∧ (inst ∉ pre.*1) ∧ 0 ≤ c
    ∧ Forall (λ kv, c < kv.2) pre ∧ Forall (λ kv, c ≤ kv.2) post
    ∧ get_next_instance name self =
        (Return (Some inst),
         {| services := services self;
            active_connections :=
              <[name := pre ++ (inst, c + 1) :: post]> (active_connections self) |}).
Proof.
  intros Hsvc Hconns Hok Hne Halg.
  pose proof (service_ok_NoDup _ _ Hok) as Hnd.
  pose proof Hok as (_ & _ & _ & Hkeys & Hpos).
  assert (Hcne : conns ≠ []).
  { intros ->. destruct (instances svc) as [|i0 l] eqn:Hl; [done |].
    assert (Hin : i0 ∈ (od_fromkeys (i0 :: l) 0).*1) by (apply od_fromkeys_keys; left).
    rewrite <- Hkeys in Hin. inversion Hin. }
  destruct (od_min_spec conns Hcne) as (pre & inst & c & post & Hmin & -> & Hpre & Hpost).
  assert (Hout : inst ∉ pre.*1).
  { rewrite fmap_app in Hnd. apply NoDup_app in Hnd as (_ & Hdisj & _).
    intros Hin. apply (Hdisj _ Hin). simpl. left. }
  assert (Hinst : inst ∈ instances svc).
  { apply (od_fromkeys_keys _ 0). rewrite <- Hkeys, fmap_app. simpl.
    apply elem_of_app. right. left. }
  assert (Hc0 : 0 ≤ c).
  { rewrite Forall_forall in Hpos. apply (Hpos (inst, c)).
    apply elem_of_app. right. left. }
  exists pre, inst, c, post. repeat split; try done.
  unfold get_next_instance. rewrite Hsvc.
  destruct (instances svc) as [|i0 l] eqn:Hl; [done |].
  rewrite Halg. simpl String.eqb. cbv iota.
  rewrite Hconns, Hmin. unfold select. rewrite Hconns.
  rewrite od_get_split by done. by rewrite od_set_split.
Qed.

(** Any other algorithm: the first instance of the list. *)
Lemma next_fallback name svc conns self :
  services self !! name = Some svc →
  active_connections self !! name = Some conns → service_ok svc conns →
  instances svc ≠ [] →
  algorithm svc ≠ "round_robin" → algorithm svc ≠ "least_connections" →
  ∃ inst c,
    instances svc !! 0%nat = Some inst
    ∧ od_get inst conns = Some c ∧ 0 ≤ c
    ∧ get_next_instance name self =
        (Return (Some inst),
         {| services := services self;
            active_connections :=
              <[name := od_set inst (c + 1) conns]> (active_connections self) |}).
Proof.
  intros Hsvc Hconns Hok Hne Hrr Hlc.
  destruct (instances svc) as [|i0 l] eqn:Hl; [done |].
  destruct (service_ok_instance _ _ i0 Hok) as (_ & c & Hc & Hc0).
  { rewrite Hl. left. }
  exists i0, c. repeat split; try done.
  unfold get_next_instance. rewrite Hsvc, Hl.
  destruct (String.eqb_spec (algorithm svc) "round_robin"); [done |].
  destruct (String.eqb_spec (algorithm svc) "least_connections"); [done |].
  unfold index; simpl. unfold select. by rewrite Hconns, Hc.
Qed.

(** On a well-formed object [get_next_instance] never raises, and it
    leaves the object well-formed. *)
Lemma wf_next name self :
  wf self →
  (∃ r, fst (get_next_instance name self) = Return r)
  ∧ wf (snd (get_next_instance name self)).
Proof.
  intros Hwf.
  destruct (services self !! name) as [svc|] eqn:Hsvc;
    [| unfold get_next_instance; rewrite Hsvc; simpl; eauto].
  destruct (decide (instances svc = [])) as [Hnil|Hne].
  { unfold get_next_instance. rewrite Hsvc, Hnil. simpl. eauto. }
  destruct (proj1 Hwf _ _ Hsvc) as (conns & Hconns & Hok).
  destruct (decide (algorithm svc = "round_robin")) as [Hrr|Hrr].
  { destruct (next_round_robin _ _ _ _ Hsvc Hconns Hok Hne Hrr)
      as (inst & c & Hinst & Hc & Hc0 & ->).
    simpl. split; [eauto |].
    apply wf_update; [done |].
    apply service_ok_set; try done.
    - apply od_get_keys. eauto.
    - lia.
    - apply Z.mod_pos_bound. destruct (instances svc); [done | simpl; lia].
    - intros _. apply Z.mod_pos_bound. destruct (instances svc); [done | simpl; lia]. }
  destruct (decide (algorithm svc = "least_connections")) as [Hlc|Hlc].
  { destruct (next_least_connections _ _ _ _ Hsvc Hconns Hok Hne Hlc)
      as (pre & inst & c & post & -> & Hinst & Hout & Hc0 & Hpre & Hpost & ->).
    simpl. split; [eauto |].
    eapply wf_update_conns; [done | exact Hsvc |].
    rewrite <- (od_set_split pre post inst c (c + 1)) by done.
    rewrite <- (with_index_id svc).
    pose proof Hok as (H0 & Hlt & Hnil & _).
    apply service_ok_set; try done; [| lia].
    rewrite fmap_app. apply elem_of_app. right. left. }
  destruct (next_fallback _ _ _ _ Hsvc Hconns Hok Hne Hrr Hlc)
    as (inst & c & Hinst & Hc & Hc0 & ->).
  simpl. split; [eauto |].
  eapply wf_update_conns; [done | exact Hsvc |].
  rewrite <- (with_index_id svc).
  pose proof Hok as (H0 & Hlt & Hnil & _).
  apply service_ok_set; try done; [| lia].
  apply od_get_keys. eauto.
Qed.

Lemma wf_release name inst self : wf self → wf (release_instance name inst self).
Proof.
  intros Hwf. unfold release_instance.
  destruct (active_connections self !! name) as [conns|] eqn:Hconns; [| done].
  destruct (od_get inst conns) as [c|] eqn:Hc; [| done].
  destruct (services self !! name) as [svc|] eqn:Hsvc.
  - destruct (proj1 Hwf _ _ Hsvc) as (conns0 & Hconns0 & Hok).
    pose proof (eq_trans (eq_sym Hconns) Hconns0) as [= <-].
    eapply wf_update_conns; [done | exact Hsvc |].
    rewrite <- (with_index_id svc).
    pose proof Hok as (H0 & Hlt & Hnil & _).
    apply service_ok_set; try done; [| lia].
    apply od_get_keys. eauto.
  - pose proof (proj2 Hwf _ Hsvc) as Hnone.
    pose proof (eq_trans (eq_sym Hconns) Hnone) as [=].
Qed.

Lemma wf_health_check probe name self : wf self → wf (health_check probe name self).
Proof.
  intros [Hwf Hdom]. unfold health_check.
  destruct (services self !! name) as [svc|] eqn:Hsvc; [| done].
  split; intros n; simpl.
  - intros svc'. destruct (decide (name = n)) as [->|Hne].
    + rewrite lookup_insert_eq. intros [= <-]. apply (Hwf _ _ Hsvc).
    + rewrite lookup_insert_ne by done. apply Hwf.
  - destruct (decide (name = n)) as [->|Hne].
    + by rewrite lookup_insert_eq.
    + rewrite lookup_insert_ne by done. apply Hdom.
Qed.

Lemma wf_step o self : wf self → wf (step self o).
Proof.
  intros Hwf. destruct o; simpl.
  - by apply wf_register.
  - by apply wf_next.
  - by apply wf_release.
  - by apply wf_health_check.
Qed.

Lemma wf_run ops self : wf self → wf (run ops self) ∧ raises ops self = false.
Proof.
  revert self. induction ops as [|o ops IH]; intros self Hwf; [done |].
  unfold run in *. simpl fold_left.
  destruct (IH (step self o) (wf_step o self Hwf)) as [IH1 IH2].
  split; [done |]. simpl. destruct o; try done.
  destruct (wf_next service_name self Hwf) as [[r ->] _]. done.
Qed.

Lemma wf_reachable ops : wf (run ops init).
Proof. apply wf_run, wf_init. Qed.

End LoadBalancerFacts.

(** ** Registration with no instances *)

Section RegisterEmpty.

Import LoadBalancer LoadBalancerInv.

(** C2, as amended.  [register_service] with an empty instance list is
    accepted: it installs, in place of whatever was registered under
    the name, an entry with no instance, cursor [0] and empty
    health and connection maps.  That entry is not usable:
    [get_next_instance] answers [None] and changes nothing. *)
Theorem register_service_empty (self : t) (name alg : string) :
  let self' := register_service name [] alg self in
  services self' !! name = Some (Service [] alg 0 ∅)
  ∧ active_connections self' !! name = Some []
  ∧ get_next_instance name self' = (Return None, self').
Proof.
  simpl. unfold get_next_instance, register_service; simpl.
  rewrite !lookup_insert_eq. done.
Qed.

(** C2, as stated, fails: a registration with one instance is replaced
    by one with none. *)
Lemma register_service_empty_replaces :
  let s1 := register_service "svc" ["http://a:1"] "round_robin" init in
  let s2 := register_service "svc" [] "round_robin" s1 in
  instances <$> services s1 !! "svc" = Some ["http://a:1"]
  ∧ instances <$> services s2 !! "svc" = Some []
  ∧ s2 ≠ s1.
Proof.
  simpl. unfold register_service; simpl. rewrite !lookup_insert_eq.
  split; [done |]. split; [done |].
  intros H. apply (f_equal (λ s, instances <$> services s !! "svc")) in H.
  simpl in H. rewrite !lookup_insert_eq in H. discriminate.
Qed.

End RegisterEmpty.

(** ** Health checks *)

Section HealthCheck.

Import LoadBalancer LoadBalancerInv.

Lemma probe_all_lookup (f : string → probe_result) insts n hs i :
  probe_all (λ _, f) n insts hs !! i =
    if decide (i ∈ insts) then Some (probe_healthy (f i)) else hs !! i.
Proof.
  revert n hs. induction insts as [|x insts IH]; intros n hs; simpl.
  - destruct (decide (i ∈ [])) as [H|_]; [inversion H | done].
  - rewrite IH. destruct (decide (i ∈ insts)) as [Hin|Hout].
    + rewrite decide_True; [done | by right].
    + destruct (decide (x = i)) as [->|Hne].
      * rewrite lookup_insert_eq. rewrite decide_True; [done | left].
      * rewrite lookup_insert_ne by done. rewrite decide_False; [done |].
        intros H. inversion H; subst; done.
Qed.

Lemma probe_healthy_200 r : probe_healthy r = true ↔ r = Response 200.
Proof.
  destruct r as [code|e]; simpl.
  - rewrite Z.eqb_eq. split; [by intros -> | by intros [= ->]].
  - split; discriminate.
Qed.

(** C3, as amended.  Whatever the probes of the instances do, after
    [health_check] an instance of the service is marked healthy if and
    only if its probe answered with status 200 exactly; a probe that
    raises marks its own instance unhealthy, the other instances are
    marked by their own probes, and nothing else of the entry
    changes. *)
Theorem health_check_marks (f : string → probe_result)
    (name : string) (svc : service) (self : t) :
  services self !! name = Some svc →
  ∃ svc',
    services (health_check (λ _, f) name self) !! name = Some svc'
    ∧ instances svc' = instances svc
    ∧ algorithm svc' = algorithm svc
    ∧ current_index svc' = current_index svc
    ∧ (∀ i, i ∈ instances svc →
         health_status svc' !! i = Some (probe_healthy (f i))
         ∧ (health_status svc' !! i = Some true ↔ f i = Response 200)
         ∧ ((∃ e, f i = ProbeRaised e) → health_status svc' !! i = Some false))
    ∧ (∀ i, i ∉ instances svc → health_status svc' !! i = health_status svc !! i).
Proof.
  intros Hsvc. unfold health_check. rewrite Hsvc. simpl.
  rewrite lookup_insert_eq. eexists. split; [done |]. simpl.
  repeat split; try done.
  - rewrite probe_all_lookup. by rewrite decide_True.
  - rewrite probe_all_lookup, decide_True by done.
    intros [= Hp]. by apply probe_healthy_200.
  - intros Hp. rewrite probe_all_lookup, decide_True by done.
    f_equal. by apply probe_healthy_200.
  - intros [e He]. rewrite probe_all_lookup, decide_True by done.
    by rewrite He.
  - intros i Hout. rewrite probe_all_lookup. by rewrite decide_False.
Qed.

Lemma health_check_marks_witness :
  let s := register_service "svc" ["http://a:1"; "http://b:1"; "http://c:1"]
             "round_robin" init in
  ∃ svc svc',
    services s !! "svc" = Some svc
    ∧ services (health_check (λ _, Scenario.probes_b_down) "svc" s) !! "svc" = Some svc'
    ∧ health_status svc' !! "http://a:1" = Some true
    ∧ health_status svc' !! "http://b:1" = Some false
    ∧ health_status svc' !! "http://c:1" = Some true.
Proof.
  simpl. eexists.
  assert (Hs : services
            (register_service "svc" ["http://a:1"; "http://b:1"; "http://c:1"]
               "round_robin" init) !! "svc"
          = Some (Service ["http://a:1"; "http://b:1"; "http://c:1"] "round_robin" 0
                    (<["http://c:1" := true]>
                       (<["http://b:1" := true]> (<["http://a:1" := true]> ∅)))))
    by (unfold register_service; simpl; by rewrite lookup_insert_eq).
  destruct (health_check_marks Scenario.probes_b_down "svc" _ _ Hs)
    as (svc' & Hsvc' & _ & _ & _ & Hin & _).
  exists svc'. split; [exact Hs |]. split; [exact Hsvc' |].
  simpl in Hin.
  destruct (Hin "http://a:1") as (-> & _); [apply list_elem_of_In; simpl; auto |].
  destruct (Hin "http://b:1") as (-> & _); [apply list_elem_of_In; simpl; auto |].
  destruct (Hin "http://c:1") as (-> & _); [apply list_elem_of_In; simpl; auto |].
  done.
Defined.

(** C3, as stated, fails: a probe answered with 204, a 2xx status,
    leaves the instance marked unhealthy. *)
Lemma health_check_204_unhealthy :
  let s := register_service "svc" ["http://a:1"] "round_robin" init in
  let s' := health_check (λ _ _, Response 204) "svc" s in
  (200 ≤ 204 < 300)
  ∧ services s' !! "svc" ≫= (λ svc, health_status svc !! "http://a:1") = Some false.
Proof.
  simpl. split; [lia |].
  unfold health_check, register_service; simpl.
  rewrite !lookup_insert_eq. simpl. rewrite lookup_insert_eq. simpl.
  by rewrite lookup_insert_eq.
Qed.

End HealthCheck.

(** ** Selection policies *)

Section Selection.

Import LoadBalancer LoadBalancerInv.

Lemma next_n_S n name self :
  next_n (S n) name self =
    let '(r, self1) := get_next_instance name self in
    let '(rs, self2) := next_n n name self1 in
    (r :: rs, self2).
Proof. reflexivity. Qed.

(** One [round_robin] call, with what the next call needs. *)
Lemma round_robin_step name svc conns self :
  services self !! name = Some svc →
  active_connections self !! name = Some conns → service_ok svc conns →
  instances svc ≠ [] → algorithm svc = "round_robin" →
  let i' := (current_index svc + 1) `mod` Z.of_nat (length (instances svc)) in
  ∃ inst self' conns',
    get_next_instance name self = (Return (Some inst), self')
    ∧ instances svc !! Z.to_nat (current_index svc) = Some inst
    ∧ services self' !! name = Some (with_index svc i')
    ∧ active_connections self' !! name = Some conns'
    ∧ service_ok (with_index svc i') conns'.
Proof.
  intros Hsvc Hconns Hok Hne Halg i'.
  destruct (next_round_robin _ _ _ _ Hsvc Hconns Hok Hne Halg)
    as (inst & c & Hinst & Hc & Hc0 & Hnext).
  eexists inst, _, _. split; [exact Hnext |]. split; [exact Hinst |]. simpl.
  rewrite !lookup_insert_eq. split; [done |]. split; [done |].
  assert (Hlen : 0 < Z.of_nat (length (instances svc)))
    by (destruct (instances svc); [done | simpl; lia]).
  apply service_ok_set; try done.
  - apply od_get_keys. eauto.
  - lia.
  - by apply Z.mod_pos_bound.
  - intros _. by apply Z.mod_pos_bound.
Qed.

Lemma round_robin_abca (self : t) (name a b c : string) :
  fst (next_n 4 name (register_service name [a; b; c] "round_robin" self))
  = [Return (Some a); Return (Some b); Return (Some c); Return (Some a)].
Proof.
  set (s0 := register_service name [a; b; c] "round_robin" self).
  set (hs := fold_left (λ (m : gmap string bool) i, <[i := true]> m) [a; b; c] ∅).
  assert (Hsvc0 : services s0 !! name = Some (Service [a; b; c] "round_robin" 0 hs))
    by (unfold s0, register_service; simpl; by rewrite lookup_insert_eq).
  assert (Hconns0 : active_connections s0 !! name = Some (od_fromkeys [a; b; c] 0))
    by (unfold s0, register_service; simpl; by rewrite lookup_insert_eq).
  pose proof (service_ok_fresh [a; b; c] "round_robin" hs) as Hok0.
  destruct (round_robin_step _ _ _ _ Hsvc0 Hconns0 Hok0)
    as (i1 & s1 & conns1 & Hn1 & Hi1 & Hsvc1 & Hconns1 & Hok1); [done | done |].
  destruct (round_robin_step _ _ _ _ Hsvc1 Hconns1 Hok1)
    as (i2 & s2 & conns2 & Hn2 & Hi2 & Hsvc2 & Hconns2 & Hok2); [done | done |].
  destruct (round_robin_step _ _ _ _ Hsvc2 Hconns2 Hok2)
    as (i3 & s3 & conns3 & Hn3 & Hi3 & Hsvc3 & Hconns3 & Hok3); [done | done |].
  destruct (round_robin_step _ _ _ _ Hsvc3 Hconns3 Hok3)
    as (i4 & s4 & conns4 & Hn4 & Hi4 & _); [done | done |].
  vm_compute in Hi1, Hi2, Hi3, Hi4.
  injection Hi1 as <-. injection Hi2 as <-. injection Hi3 as <-. injection Hi4 as <-.
  rewrite next_n_S, Hn1, next_n_S, Hn2, next_n_S, Hn3, next_n_S, Hn4. reflexivity.
Qed.

(** C6.  After [register_service(name, [a, b, c], "round_robin")] four
    calls of [get_next_instance(name)] answer [a], [b], [c], [a]; and
    on every object reached by calls of the methods, a [round_robin]
    call on a service with instances answers [instances[cursor]] and
    moves the cursor to [(cursor + 1) mod len(instances)]. *)
Theorem round_robin_rotation :
  (∀ (self : t) (name a b c : string),
     fst (next_n 4 name (register_service name [a; b; c] "round_robin" self))
     = [Return (Some a); Return (Some b); Return (Some c); Return (Some a)])
  ∧ (∀ (ops : list op) (name : string) (svc : service),
       services (run ops init) !! name = Some svc →
       algorithm svc = "round_robin" →
       instances svc ≠ [] →
       ∃ inst self',
         get_next_instance name (run ops init) = (Return (Some inst), self')
         ∧ index (instances svc) (current_index svc) = Some inst
         ∧ instances svc !! Z.to_nat (current_index svc) = Some inst
         ∧ services self' !! name =
             Some (with_index svc
                     ((current_index svc + 1) `mod` Z.of_nat (length (instances svc))))).
Proof.
  split; [apply round_robin_abca |].
  intros ops name svc Hsvc Halg Hne.
  destruct (proj1 (wf_reachable ops) _ _ Hsvc) as (conns & Hconns & Hok).
  destruct (round_robin_step _ _ _ _ Hsvc Hconns Hok Hne Halg)
    as (inst & self' & conns' & Hnext & Hinst & Hsvc' & _).
  exists inst, self'. repeat split; try done.
  unfold index. destruct Hok as (H0 & _).
  destruct (Z.leb_spec 0 (current_index svc)); [done | lia].
Qed.

Lemma round_robin_rotation_witness :
  let ops := [Register "svc" ["a"; "b"] "round_robin"; Next "svc"] in
  let svc := Service ["a"; "b"] "round_robin" 1
               (<["b" := true]> (<["a" := true]> ∅)) in
  services (run ops init) !! "svc" = Some svc
  ∧ ∃ self',
      get_next_instance "svc" (run ops init) = (Return (Some "b"), self')
      ∧ services self' !! "svc" = Some (with_index svc 0).
Proof.
  simpl.
  assert (Hsvc : services
                   (run [Register "svc" ["a"; "b"] "round_robin"; Next "svc"] init)
                   !! "svc"
                 = Some (Service ["a"; "b"] "round_robin" 1
                           (<["b" := true]> (<["a" := true]> ∅)))).
  { unfold run; simpl. unfold get_next_instance, register_service; simpl.
    rewrite lookup_insert_eq. simpl. unfold select; simpl.
    rewrite lookup_insert_eq. simpl. by rewrite lookup_insert_eq. }
  split; [exact Hsvc |].
  destruct (proj2 round_robin_rotation _ _ _ Hsvc eq_refl)
    as (inst & self' & Hnext & _ & Hinst & Hsvc'); [done |].
  simpl in Hinst. injection Hinst as <-.
  exists self'. split; [exact Hnext | exact Hsvc'].
Defined.

(** One [least_connections] call on counts that are known. *)
Lemma least_connections_step name svc conns inst c self :
  services self !! name = Some svc →
  instances svc ≠ [] → algorithm svc = "least_connections" →
  active_connections self !! name = Some conns →
  od_min conns = Some inst → od_get inst conns = Some c →
  get_next_instance name self =
    (Return (Some inst),
     {| services := services self;
        active_connections :=
          <[name := od_set inst (c + 1) conns]> (active_connections self) |}).
Proof.
  intros Hsvc Hne Halg Hconns Hmin Hc.
  unfold get_next_instance. rewrite Hsvc.
  destruct (instances svc) as [|i0 l]; [done |].
  rewrite Halg. simpl String.eqb. cbv iota.
  rewrite Hconns, Hmin. unfold select. by rewrite Hconns, Hc.
Qed.

Lemma least_connections_ab (self : t) (name a b : string) :
  a ≠ b →
  let s0 := register_service name [a; b] "least_connections" self in
  let s3 := snd (next_n 3 name s0) in
  fst (next_n 3 name s0) = [Return (Some a); Return (Some b); Return (Some a)]
  ∧ active_connections s3 !! name = Some [(a, 2); (b, 1)]
  ∧ fst (get_next_instance name s3) = Return (Some b)
  ∧ active_connections (release_instance name a s3) !! name = Some [(a, 1); (b, 1)]
  ∧ fst (get_next_instance name (release_instance name a s3)) = Return (Some a).
Proof.
  intros Hab. cbv zeta.
  assert (Hab' : String.eqb a b = false) by by apply String.eqb_neq.
  assert (Hba' : String.eqb b a = false) by (apply String.eqb_neq; congruence).
  set (s0 := register_service name [a; b] "least_connections" self).
  set (svc := Service [a; b] "least_connections" 0
                (fold_left (λ (m : gmap string bool) i, <[i := true]> m) [a; b] ∅)).
  assert (Hsvc0 : services s0 !! name = Some svc)
    by (unfold s0, register_service; simpl; by rewrite lookup_insert_eq).
  assert (Hconns0 : active_connections s0 !! name = Some [(a, 0); (b, 0)]).
  { unfold s0, register_service, od_fromkeys; simpl.
    rewrite lookup_insert_eq, Hab'. done. }
  assert (Hstep : ∀ s conns inst c,
             services s !! name = Some svc →
             active_connections s !! name = Some conns →
             od_min conns = Some inst → od_get inst conns = Some c →
             ∃ s', get_next_instance name s = (Return (Some inst), s')
                   ∧ services s' !! name = Some svc
                   ∧ active_connections s' !! name = Some (od_set inst (c + 1) conns)).
  { intros s conns inst c Hs Hc Hmin Hget.
    eexists. split; [by eapply least_connections_step |].
    simpl. by rewrite lookup_insert_eq. }
  destruct (Hstep s0 _ a 0 Hsvc0 Hconns0) as (s1 & Hn1 & Hsvc1 & Hconns1);
    [done | by simpl; rewrite String.eqb_refl |].
  simpl in Hconns1. rewrite String.eqb_refl in Hconns1.
  destruct (Hstep s1 _ b 0 Hsvc1 Hconns1) as (s2 & Hn2 & Hsvc2 & Hconns2);
    [done | by simpl; rewrite Hab', String.eqb_refl |].
  simpl in Hconns2. rewrite Hab', String.eqb_refl in Hconns2.
  destruct (Hstep s2 _ a 1 Hsvc2 Hconns2) as (s3 & Hn3 & Hsvc3 & Hconns3);
    [done | by simpl; rewrite String.eqb_refl |].
  simpl in Hconns3. rewrite String.eqb_refl in Hconns3.
  destruct (Hstep s3 _ b 1 Hsvc3 Hconns3) as (s4 & Hn4 & _);
    [done | by simpl; rewrite Hab', String.eqb_refl |].
  rewrite next_n_S, Hn1, next_n_S, Hn2, next_n_S, Hn3. simpl.
  split; [done |]. split; [exact Hconns3 |]. split; [by rewrite Hn4 |].
  assert (Hrel : active_connections (release_instance name a s3) !! name
                 = Some [(a, 1); (b, 1)]).
  { unfold release_instance. rewrite Hconns3. simpl. rewrite String.eqb_refl.
    simpl. rewrite lookup_insert_eq. reflexivity. }
  split; [exact Hrel |].
  assert (Hsvcr : services (release_instance name a s3) !! name = Some svc).
  { unfold release_instance. rewrite Hconns3. simpl. rewrite String.eqb_refl.
    exact Hsvc3. }
  destruct (Hstep _ _ a 1 Hsvcr Hrel) as (s5 & Hn5 & _);
    [done | by simpl; rewrite String.eqb_refl |].
  by rewrite Hn5.
Qed.

(** C7.  On every object reached by calls of the methods, a
    [least_connections] call on a service with instances answers the
    instance whose count is least, the first such in the iteration
    order of the counts, and adds one to that count.  So, with [a] and
    [b] registered, after [a] was selected twice and [b] once the next
    call answers [b], the instance with the lowest count; and once one
    connection of [a] is released the two counts are level and the
    next call answers [a], the first of them. *)
Theorem least_connections_selection :
  (∀ (ops : list op) (name : string) (svc : service),
     services (run ops init) !! name = Some svc →
     algorithm svc = "least_connections" →
     instances svc ≠ [] →
     ∃ pre inst c post,
       active_connections (run ops init) !! name = Some (pre ++ (inst, c) :: post)
       ∧ inst ∈ instances svc
       ∧ Forall (λ kv, c < kv.2) pre
       ∧ Forall (λ kv, c ≤ kv.2) post
       ∧ get_next_instance name (run ops init) =
           (Return (Some inst),
            {| services := services (run ops init);
               active_connections :=
                 <[name := pre ++ (inst, c + 1) :: post]>
                   (active_connections (run ops init)) |}))
  ∧ (∀ (self : t) (name a b : string),
       a ≠ b →
       let s0 := register_service name [a; b] "least_connections" self in
       let s3 := snd (next_n 3 name s0) in
       fst (next_n 3 name s0) = [Return (Some a); Return (Some b); Return (Some a)]
       ∧ active_connections s3 !! name = Some [(a, 2); (b, 1)]
       ∧ fst (get_next_instance name s3) = Return (Some b)
       ∧ active_connections (release_instance name a s3) !! name = Some [(a, 1); (b, 1)]
       ∧ fst (get_next_instance name (release_instance name a s3)) = Return (Some a)).
Proof.
  split; [| apply least_connections_ab].
  intros ops name svc Hsvc Halg Hne.
  destruct (proj1 (wf_reachable ops) _ _ Hsvc) as (conns & Hconns & Hok).
  destruct (next_least_connections _ _ _ _ Hsvc Hconns Hok Hne Halg)
    as (pre & inst & c & post & -> & Hinst & _ & _ & Hpre & Hpost & Hnext).
  exists pre, inst, c, post. done.
Qed.

Lemma least_connections_selection_witness :
  let ops := [Register "svc" ["a"; "b"; "c"] "least_connections";
              Next "svc"; Next "svc"; Release "svc" "a"] in
  (algorithm <$> services (run ops init) !! "svc") = Some "least_connections"
  ∧ active_connections (run ops init) !! "svc" = Some [("a", 0); ("b", 1); ("c", 0)]
  ∧ fst (get_next_instance "svc" (run ops init)) = Return (Some "a").
Proof.
  cbv zeta.
  set (ops := [Register "svc" ["a"; "b"; "c"] "least_connections";
               Next "svc"; Next "svc"; Release "svc" "a"]).
  assert (Hsvc : services (run ops init) !! "svc"
                 = Some (Service ["a"; "b"; "c"] "least_connections" 0
                           (<["c" := true]> (<["b" := true]> (<["a" := true]> ∅))))).
  { unfold ops, run; simpl. unfold get_next_instance, register_service; simpl.
    rewrite lookup_insert_eq. simpl. rewrite lookup_insert_eq. simpl.
    unfold select; simpl. rewrite lookup_insert_eq. simpl.
    rewrite lookup_insert_eq. simpl. rewrite lookup_insert_eq. simpl.
    unfold release_instance; simpl. rewrite lookup_insert_eq. simpl.
    by rewrite lookup_insert_eq. }
  assert (Hconns : active_connections (run ops init) !! "svc"
                   = Some [("a", 0); ("b", 1); ("c", 0)]).
  { unfold ops, run; simpl. unfold get_next_instance, register_service; simpl.
    rewrite lookup_insert_eq. simpl. rewrite lookup_insert_eq. simpl.
    unfold select; simpl. rewrite lookup_insert_eq. simpl.
    rewrite lookup_insert_eq. simpl. rewrite lookup_insert_eq. simpl.
    unfold release_instance; simpl. rewrite lookup_insert_eq. simpl.
    by rewrite lookup_insert_eq. }
  split; [by rewrite Hsvc |]. split; [exact Hconns |].
  destruct (proj1 least_connections_selection ops "svc" _ Hsvc eq_refl)
    as (pre & inst & c & post & Hc & _ & Hpre & Hpost & ->); [done |].
  simpl. f_equal. f_equal.
  pose proof (eq_trans (eq_sym Hconns) Hc) as [= Heq].
  destruct pre as [|[k v] pre].
  - by injection Heq as <- _.
  - injection Heq as <- <- Heq. apply Forall_cons in Hpre as [Hv _]. simpl in Hv.
    exfalso.
    assert (Hin : (inst, c) ∈ [("b", 1); ("c", 0)])
      by (rewrite Heq; apply elem_of_app; right; left).
    apply list_elem_of_In in Hin. simpl in Hin.
    destruct Hin as [[= <- <-]|[[= <- <-]|[]]]; lia.
Defined.

End Selection.

(** ** Counts and cursor over every run *)

Section RunInvariant.

Import LoadBalancer LoadBalancerInv.

(** C9, as amended.  Start from a fresh [LoadBalancer] and call
    [register_service], [get_next_instance], [release_instance] (and
    [health_check]) any number of times, in any order.  No call
    raises.  Every registered service then has a count for each of its
    instances and every count is a non-negative integer;
    [release_instance] takes a count [c] to [max(0, c - 1)], and is a
    no-op on an instance without a count and on an unknown service.
    The cursor satisfies [0 <= cursor], and [cursor < len(instances)]
    whenever the service has an instance; a service registered with no
    instance has cursor [0]. *)
Theorem load_balancer_invariant (ops : list op) (name : string) (svc : service) :
  services (run ops init) !! name = Some svc →
  raises ops init = false
  ∧ (∃ conns,
       active_connections (run ops init) !! name = Some conns
       ∧ (∀ i, i ∈ instances svc → is_Some (od_get i conns))
       ∧ (∀ i c, od_get i conns = Some c → 0 ≤ c)
       ∧ (∀ i c, od_get i conns = Some c →
            active_connections (release_instance name i (run ops init)) !! name
            = Some (od_set i (Z.max 0 (c - 1)) conns))
       ∧ (∀ i, od_get i conns = None →
            release_instance name i (run ops init) = run ops init))
  ∧ (∀ name' i, services (run ops init) !! name' = None →
       release_instance name' i (run ops init) = run ops init)
  ∧ 0 ≤ current_index svc
  ∧ (instances svc ≠ [] → current_index svc < Z.of_nat (length (instances svc)))
  ∧ (instances svc = [] → current_index svc = 0).
Proof.
  intros Hsvc.
  destruct (wf_run ops init wf_init) as [[Hwf Hdom] Hraises].
  destruct (Hwf _ _ Hsvc) as (conns & Hconns & Hok).
  pose proof Hok as (H0 & Hlt & Hnil & Hkeys & Hpos).
  split; [exact Hraises |]. split; [| split; [| done]].
  - exists conns. split; [exact Hconns |]. repeat split.
    + intros i Hi. by destruct (service_ok_instance _ _ i Hok Hi) as (_ & c & -> & _).
    + intros i c Hc. apply od_get_elem in Hc.
      rewrite Forall_forall in Hpos. apply (Hpos _ Hc).
    + intros i c Hc. unfold release_instance. rewrite Hconns, Hc. simpl.
      by rewrite lookup_insert_eq.
    + intros i Hc. unfold release_instance. by rewrite Hconns, Hc.
  - intros name' i Hnone. unfold release_instance. by rewrite (Hdom _ Hnone).
Qed.

Lemma load_balancer_invariant_witness :
  let ops := [Register "svc" ["a"; "b"] "round_robin"; Next "svc";
              Release "svc" "a"; Release "svc" "a"] in
  ∃ svc conns,
    services (run ops init) !! "svc" = Some svc
    ∧ active_connections (run ops init) !! "svc" = Some conns
    ∧ raises ops init = false
    ∧ 0 ≤ current_index svc < Z.of_nat (length (instances svc))
    ∧ ∀ i c, od_get i conns = Some c → 0 ≤ c.
Proof.
  cbv zeta.
  set (ops := [Register "svc" ["a"; "b"] "round_robin"; Next "svc";
               Release "svc" "a"; Release "svc" "a"]).
  assert (Hsvc : services (run ops init) !! "svc"
                 = Some (Service ["a"; "b"] "round_robin" 1
                           (<["b" := true]> (<["a" := true]> ∅)))).
  { unfold ops, run; simpl. unfold get_next_instance, register_service; simpl.
    rewrite lookup_insert_eq. simpl. unfold select; simpl.
    rewrite lookup_insert_eq. simpl.
    unfold release_instance; simpl. rewrite lookup_insert_eq. simpl.
    rewrite lookup_insert_eq. simpl. by rewrite lookup_insert_eq. }
  destruct (load_balancer_invariant ops "svc" _ Hsvc)
    as (Hr & (conns & Hconns & _ & Hpos & _) & _ & H0 & Hlt & _).
  eexists _, conns. split; [exact Hsvc |]. split; [exact Hconns |].
  split; [exact Hr |]. split; [| exact Hpos].
  split; [exact H0 | by apply Hlt].
Defined.

(** C9, as stated, fails: a service registered with no instance has
    cursor [0], which is not below the length [0] of its list. *)
Lemma cursor_not_below_length :
  let self := run [Register "svc" [] "round_robin"] init in
  ∃ svc,
    services self !! "svc" = Some svc
    ∧ ¬ (0 ≤ current_index svc < Z.of_nat (length (instances svc))).
Proof.
  simpl. unfold run, register_service; simpl. eexists.
  rewrite lookup_insert_eq. split; [done |]. simpl. lia.
Qed.

End RunInvariant.

(** ** The cache manager *)

Section CacheFacts.

Import CacheManager.

Context {V R : Type}.
Variable json_dumps : option V → outcome string.
Variable json_loads : string → outcome (option V).
Variable client_get : time → string → string → R → outcome (option item) * R.
Variable client_put : time → string → string → string → Z → R → outcome unit * R.
Variable client_delete : time → string → string → R → outcome unit * R.
Variable client_list_keys : option (time → string → R → outcome (list string) * R).

Local Abbreviation get := (CacheManager.get json_loads client_get).
Local Abbreviation set := (CacheManager.set json_dumps client_put).
Local Abbreviation delete := (CacheManager.delete client_delete).
Local Abbreviation list_keys := (CacheManager.list_keys client_list_keys).
Local Abbreviation invalidate_by_tag :=
  (CacheManager.invalidate_by_tag client_delete client_list_keys).
Local Abbreviation clear_all := (CacheManager.clear_all client_delete client_list_keys).
Local Abbreviation remove_keys := (CacheManager.remove_keys client_delete).

Implicit Types (self : t V R) (now : time) (key tag : string).

(** [get] on the process-local store: the entry, if it has not
    expired; the object is not changed. *)
Lemma get_memory now key self :
  iron_client self = None →
  get now key self =
    (Return (match memory_cache self !! key with
             | Some e => if expires_at e >? now then value e else None
             | None => None
             end), self).
Proof.
  intros Hmem. unfold CacheManager.get, get_try. rewrite Hmem.
  destruct (memory_cache self !! key) as [e|]; [| done].
  by destruct (expires_at e >? now).
Qed.

(** C4.  [get] never raises, whatever the key, the clock, the object
    and the external client do.  On the process-local store a key
    without entry gives [None]; a client that answers with no item
    gives [None]; and when the client raises on the lookup, or
    [json.loads] raises on the item, [get] returns [None]. *)
Theorem get_never_raises now key self :
  (∃ v, fst (get now key self) = Return v)
  ∧ (iron_client self = None → memory_cache self !! key = None →
     get now key self = (Return None, self))
  ∧ (∀ r e r', iron_client self = Some r →
       client_get now (cache_name self) key r = (Raise e, r') →
       get now key self = (Return None, with_client self r'))
  ∧ (∀ r r', iron_client self = Some r →
       client_get now (cache_name self) key r = (Return None, r') →
       get now key self = (Return None, with_client self r'))
  ∧ (∀ r r' payload e, iron_client self = Some r →
       client_get now (cache_name self) key r = (Return (Some (Item payload)), r') →
       json_loads payload = Raise e →
       get now key self = (Return None, with_client self r')).
Proof.
  split; [| split; [| split; [| split]]].
  - unfold CacheManager.get, get_try.
    destruct (iron_client self) as [r|].
    + destruct (client_get now (cache_name self) key r) as [[it|e] r']; simpl; [| eauto].
      destruct it as [[payload]|]; [| simpl; eauto].
      destruct (String.eqb payload ""); [simpl; eauto |].
      destruct (json_loads payload); simpl; eauto.
    + destruct (memory_cache self !! key) as [e|]; [| simpl; eauto].
      destruct (expires_at e >? now); simpl; eauto.
  - intros Hmem Hkey. rewrite get_memory by done. by rewrite Hkey.
  - intros r e r' Hc Hget. unfold CacheManager.get, get_try. by rewrite Hc, Hget.
  - intros r r' Hc Hget. unfold CacheManager.get, get_try. by rewrite Hc, Hget.
  - intros r r' payload e Hc Hget Hjson. unfold CacheManager.get, get_try.
    rewrite Hc, Hget. destruct (String.eqb payload ""); [done |]. by rewrite Hjson.
Qed.

(** [set] on the process-local store, for a representable expiry. *)
Lemma set_memory now key v ttl tags self :
  iron_client self = None →
  datetime_min ≤ now ≤ datetime_max →
  datetime_min ≤ now + ttl * 1000000 ≤ datetime_max →
  set now key v ttl tags self =
    registry_add key
      {| iron_available := iron_available self;
         client := client self;
         cache_name := cache_name self;
         memory_cache := <[key := Entry v (now + ttl * 1000000)]> (memory_cache self);
         key_registry := key_registry self |}.
Proof.
  intros Hmem Hnow Hexp. unfold CacheManager.set, set_try. rewrite Hmem.
  assert (Htd : timedelta_seconds ttl = Some (ttl * 1000000)).
  { unfold timedelta_seconds.
    assert (-999999999 ≤ ttl / 86400)
      by (apply Z.div_le_lower_bound; unfold datetime_min, datetime_max in *; lia).
    assert (ttl / 86400 ≤ 999999999)
      by (apply Z.div_le_upper_bound; unfold datetime_min, datetime_max in *; lia).
    destruct (Z.leb_spec (-999999999) (ttl / 86400)); [| lia].
    destruct (Z.leb_spec (ttl / 86400) 999999999); [done | lia]. }
  unfold plus_seconds, datetime_add. rewrite Htd.
  destruct (Z.leb_spec datetime_min (now + ttl * 1000000)); [| lia].
  destruct (Z.leb_spec (now + ttl * 1000000) datetime_max); [done | lia].
Qed.

(** C5, as amended.  On the process-local store, for every key, value
    and [ttl > 0] whose expiry [now + ttl] is a [datetime] (it falls
    before the year 10000): from the [set] until [ttl] seconds have
    passed [get(key)] returns the value set, and from then on it
    returns [None]. *)
Theorem cache_ttl now key v ttl tags self :
  iron_client self = None →
  datetime_min ≤ now →
  0 < ttl →
  now + ttl * 1000000 ≤ datetime_max →
  let self' := set now key v ttl tags self in
  get now key self' = (Return v, self')
  ∧ (∀ now', now' < now + ttl * 1000000 → get now' key self' = (Return v, self'))
  ∧ (∀ now', now + ttl * 1000000 ≤ now' → get now' key self' = (Return None, self')).
Proof.
  intros Hmem Hmin Httl Hmax self'.
  assert (Hself' : self' = registry_add key
            {| iron_available := iron_available self;
               client := client self;
               cache_name := cache_name self;
               memory_cache := <[key := Entry v (now + ttl * 1000000)]> (memory_cache self);
               key_registry := key_registry self |})
    by (apply set_memory; [done | lia | lia]).
  assert (Hmem' : iron_client self' = None) by (rewrite Hself'; exact Hmem).
  assert (Hentry : memory_cache self' !! key = Some (Entry v (now + ttl * 1000000)))
    by (rewrite Hself'; simpl; apply lookup_insert_eq).
  assert (Hlive : ∀ now', now' < now + ttl * 1000000 →
                          get now' key self' = (Return v, self')).
  { intros now' Hnow'. rewrite get_memory by done. rewrite Hentry. simpl.
    destruct (Z.gtb_spec (now + ttl * 1000000) now'); [done | lia]. }
  split; [apply Hlive; lia |]. split; [exact Hlive |].
  intros now' Hnow'. rewrite get_memory by done. rewrite Hentry. simpl.
  destruct (Z.gtb_spec (now + ttl * 1000000) now'); [lia | done].
Qed.

(** The removal loop on the process-local store: it ends without
    raising, and takes the listed keys that [hit] selects out of the
    store and out of the registry. *)
Lemma remove_keys_memory (hit : string → bool) now (keys : list string) self :
  iron_client self = None →
  ∃ self',
    remove_keys hit now keys self = (Return tt, self')
    ∧ iron_available self' = iron_available self
    ∧ client self' = client self
    ∧ cache_name self' = cache_name self
    ∧ (∀ k, k ∈ key_registry self' ↔
            k ∈ key_registry self ∧ ¬ (k ∈ keys ∧ hit k = true))
    ∧ (∀ k, memory_cache self' !! k =
            if decide (k ∈ keys ∧ hit k = true) then None
            else memory_cache self !! k).
Proof.
  revert self. induction keys as [|key keys IH]; intros self Hmem.
  - exists self. do 4 (split; [done |]). split.
    + intros k. split; [| by intros [? _]].
      intros Hk. split; [done |]. intros [Hin _]. inversion Hin.
    + intros k. destruct (decide (k ∈ [] ∧ hit k = true)) as [[Hin _]|_]; [| done].
      inversion Hin.
  - simpl. rewrite Hmem. destruct (hit key) eqn:Hhit.
    + destruct (IH (registry_discard key (memory_pop key self)))
        as (self' & Hrun & Hia & Hcl & Hcn & Hreg & Hmc); [exact Hmem |].
      exists self'. split; [exact Hrun |]. do 3 (split; [done |]). split.
      * intros k. split.
        -- intros Hk. apply Hreg in Hk as [Hk Hnot]. simpl in Hk.
           apply elem_of_difference in Hk as [Hk Hne].
           rewrite elem_of_singleton in Hne.
           split; [done |]. intros [Hin Hh]. apply Hnot. split; [| done].
           inversion Hin; subst; done.
        -- intros [Hk Hnot]. apply Hreg. simpl. split.
           ++ apply elem_of_difference. split; [done |]. rewrite elem_of_singleton.
              intros ->. apply Hnot. split; [left | done].
           ++ intros [Hin Hh]. apply Hnot. split; [by right | done].
      * intros k. rewrite Hmc. simpl.
        destruct (decide (k ∈ keys ∧ hit k = true)) as [[Hin Hh]|Hno].
        -- rewrite decide_True; [done |]. split; [by right | done].
        -- destruct (decide (key = k)) as [->|Hne].
           ++ rewrite lookup_delete_eq. rewrite decide_True; [done |]. split; [left | done].
           ++ rewrite lookup_delete_ne by done. rewrite decide_False; [done |].
              intros [Hin Hh]. apply Hno. split; [| done].
              inversion Hin; subst; done.
    + destruct (IH self Hmem) as (self' & Hrun & Hia & Hcl & Hcn & Hreg & Hmc).
      exists self'. split; [exact Hrun |]. do 3 (split; [done |]). split.
      * intros k. split.
        -- intros Hk. apply Hreg in Hk as [Hk Hnot]. split; [done |].
           intros [Hin Hh]. apply Hnot. split; [| done].
           inversion Hin; subst; [congruence | done].
        -- intros [Hk Hnot]. apply Hreg. split; [done |].
           intros [Hin Hh]. apply Hnot. split; [by right | done].
      * intros k. rewrite Hmc.
        destruct (decide (k ∈ keys ∧ hit k = true)) as [[Hin Hh]|Hno].
        -- rewrite decide_True; [done |]. split; [by right | done].
        -- rewrite decide_False; [done |]. intros [Hin Hh]. apply Hno.
           split; [| done]. inversion Hin; subst; [congruence | done].
Qed.




End CacheFacts.

(** ** The cache manager on concrete stores *)

Section CacheExamples.

Import CacheManager.

Lemma get_never_raises_witness :
  iron_client Scenario.iron_manager = Some tt
  ∧ Scenario.get Scenario.t0 "user:1:profile" Scenario.iron_manager
    = (Return None, Scenario.iron_manager).
Proof.
  split; [reflexivity |].
  apply (proj1 (proj2 (proj2
           (get_never_raises Scenario.loads Scenario.down_get
              Scenario.t0 "user:1:profile" Scenario.iron_manager)))
         tt (BackendError "connection refused") tt); reflexivity.
Defined.

Lemma cache_ttl_witness :
  let self' := Scenario.set Scenario.t0 "k" (Some 7) 3600 None init_memory in
  (iron_client (init_memory (V := Z) (R := unit)) = None ∧ 0 < 3600)
  ∧ Scenario.get Scenario.t0 "k" self' = (Return (Some 7), self')
  ∧ Scenario.get (Scenario.after 3599) "k" self' = (Return (Some 7), self')
  ∧ Scenario.get (Scenario.after 3600) "k" self' = (Return None, self').
Proof.
  cbv zeta. split; [split; [reflexivity | lia] |].
  destruct (cache_ttl Scenario.dumps Scenario.loads Scenario.down_get Scenario.down_put
              Scenario.t0 "k" (Some 7) 3600 None init_memory)
    as (Hnow & Hlive & Hdead);
    [reflexivity | unfold datetime_min, Scenario.t0; lia | lia
    | unfold datetime_max, Scenario.t0; lia |].
  split; [exact Hnow |]. split.
  - apply Hlive. unfold Scenario.after, Scenario.t0. lia.
  - apply Hdead. unfold Scenario.after, Scenario.t0. lia.
Defined.

(** C5, as stated, fails: with [ttl = 10**12] the expiry falls after
    the year 9999, the date arithmetic of [set] raises
    [OverflowError], the [except] branch drops it, and [get] right
    after the [set] finds nothing. *)
Lemma cache_ttl_overflow :
  let self' := Scenario.set Scenario.t0 "k" (Some 7) 1000000000000 None init_memory in
  0 < 1000000000000
  ∧ plus_seconds Scenario.t0 1000000000000 = None
  ∧ self' = init_memory
  ∧ fst (Scenario.get Scenario.t0 "k" self') = Return None
  ∧ fst (Scenario.get Scenario.t0 "k" self') ≠ Return (Some 7).
Proof.
  cbv zeta. split; [lia |]. split; [reflexivity |]. split; [reflexivity |].
  split; [reflexivity | discriminate].
Qed.






End CacheExamples.

(** ** The rate limiter *)

Section RateLimitFacts.

Import AuthMiddleware.

Implicit Types (d : db) (t : time) (ip ep : string).

Lemma filter_block_none ip (rows : list block_row) :
  Forall (λ r, block_ip_address r ≠ ip) rows →
  filter (λ r, block_ip_address r = ip) rows = [].
Proof.
  induction 1 as [|r rows Hr _ IH]; [done |].
  by rewrite filter_cons_False.
Qed.

Lemma filter_block_all ip (rows : list block_row) :
  Forall (λ r, block_ip_address r ≠ ip) rows →
  filter (λ r, block_ip_address r ≠ ip) rows = rows.
Proof.
  induction 1 as [|r rows Hr _ IH]; [done |].
  rewrite filter_cons_True by done. by rewrite IH.
Qed.

Lemma is_ip_blocked_clear (c : clock) ip d :
  Forall (λ r, block_ip_address r ≠ ip) (ip_blocklist d) →
  is_ip_blocked c ip d = (false, d).
Proof. intros H. unfold is_ip_blocked. by rewrite filter_block_none. Qed.

Lemma upsert_fresh (row : block_row) (rows : list block_row) :
  Forall (λ r, block_ip_address r ≠ block_ip_address row) rows →
  upsert row rows = rows ++ [row].
Proof.
  induction 1 as [|r rows Hr _ IH]; [done |].
  simpl. rewrite decide_False by done. by rewrite IH.
Qed.

Lemma count_app ip ep t bl (l1 l2 : list rate_row) :
  get_rate_limit_count ip ep t (Db bl (l1 ++ l2))
  = get_rate_limit_count ip ep t (Db bl l1) + get_rate_limit_count ip ep t (Db bl l2).
Proof.
  unfold get_rate_limit_count; simpl. rewrite filter_app, fmap_app.
  induction (count <$> filter _ l1) as [|x xs IH]; simpl; [done | lia].
Qed.

Lemma count_old ip ep t bl (rows : list rate_row) :
  Forall (λ r, rate_ip_address r = ip → rate_endpoint r = ep → created_at r < t) rows →
  get_rate_limit_count ip ep t (Db bl rows) = 0.
Proof.
  unfold get_rate_limit_count; simpl.
  induction 1 as [|r rows Hr _ IH]; [done |].
  rewrite filter_cons_False; [done |]. intros (Hip & Hep & Ht).
  specialize (Hr Hip Hep). lia.
Qed.

Lemma count_one ip ep t t' bl :
  get_rate_limit_count ip ep t (Db bl [RateRow ip ep 1 t'])
  = if decide (t ≤ t') then 1 else 0.
Proof.
  unfold get_rate_limit_count; cbn [rate_limits]. rewrite filter_cons, filter_nil.
  destruct (decide (t ≤ t')) as [Hle|Hgt].
  - by rewrite decide_True.
  - rewrite decide_False; [done |]. by intros (_ & _ & ?).
Qed.

Lemma minus_60 t :
  datetime_min + 60 * 1000000 ≤ t → t ≤ datetime_max →
  minus_seconds t 60 = Some (t - 60 * 1000000).
Proof.
  intros Hmin Hmax. unfold minus_seconds.
  change (timedelta_seconds 60) with (Some 60000000). unfold datetime_add.
  destruct (Z.leb_spec datetime_min (t + Z.opp 60000000));
    [| unfold datetime_min in *; lia].
  destruct (Z.leb_spec (t + Z.opp 60000000) datetime_max);
    [| unfold datetime_max in *; lia].
  simpl. f_equal.
Qed.

Lemma plus_block_duration t :
  datetime_min ≤ t → t + 86400 * 1000000 ≤ datetime_max →
  plus_seconds t ip_block_duration = Some (t + 86400 * 1000000).
Proof.
  intros Hmin Hmax. unfold plus_seconds.
  change (timedelta_seconds ip_block_duration) with (Some 86400000000).
  unfold datetime_add.
  destruct (Z.leb_spec datetime_min (t + 86400000000));
    [| unfold datetime_min in *; lia].
  destruct (Z.leb_spec (t + 86400000000) datetime_max);
    [| unfold datetime_max in *; lia].
  simpl. f_equal.
Qed.

Lemma calls_cons limits req endpoint (c : clock) (rest : list clock) d :
  calls limits req endpoint (c :: rest) d =
    let '(v, d1) := check_rate_limit limits c req endpoint d in
    let '(vs, d2) := calls limits req endpoint rest d1 in
    (v :: vs, d2).
Proof. reflexivity. Qed.

Section Policy_5_60.

Variable limits : gmap string policy.
Variable req : request.
Variable endpoint : option string.

Let ip := default "unknown" (client_host req).
Let ep := default (url_path req) endpoint.

Hypothesis Hpolicy : limits !! ep = Some (Policy 5 60).
Hypothesis Hdefault : is_Some (limits !! "default").

(** A call that finds no block and fewer than five requests in its
    window is allowed and recorded. *)
Lemma check_allowed t d :
  Forall (λ r, block_ip_address r ≠ ip) (ip_blocklist d) →
  datetime_min + 60 * 1000000 ≤ t → t ≤ datetime_max →
  get_rate_limit_count ip ep (t - 60 * 1000000) d < 5 →
  check_rate_limit limits (utc_clock t) req endpoint d
  = (Allowed, increment_rate_limit (utc_clock t) ip ep d).
Proof.
  intros Hnb Hmin Hmax Hcount. unfold check_rate_limit.
  fold ip. fold ep. rewrite is_ip_blocked_clear by done.
  destruct Hdefault as [fallback ->]. rewrite Hpolicy. simpl.
  rewrite minus_60 by done.
  destruct (Z.geb_spec (get_rate_limit_count ip ep (t - 60 * 1000000) d) 5); [lia | done].
Qed.

(** A call that finds no block and five requests or more in its
    window is rejected, and blocks the IP. *)
Lemma check_exceeded t d :
  Forall (λ r, block_ip_address r ≠ ip) (ip_blocklist d) →
  datetime_min + 60 * 1000000 ≤ t → t ≤ datetime_max →
  5 ≤ get_rate_limit_count ip ep (t - 60 * 1000000) d →
  check_rate_limit limits (utc_clock t) req endpoint d
  = (Rejected 429 "Rate limit exceeded",
     block_ip (utc_clock t) ip "rate_limit_exceeded" d).
Proof.
  intros Hnb Hmin Hmax Hcount. unfold check_rate_limit.
  fold ip. fold ep. rewrite is_ip_blocked_clear by done.
  destruct Hdefault as [fallback ->]. rewrite Hpolicy. simpl.
  rewrite minus_60 by done.
  destruct (Z.geb_spec (get_rate_limit_count ip ep (t - 60 * 1000000) d) 5); [done | lia].
Qed.

End Policy_5_60.

(** The guard, on a block list whose only row for the IP is the last. *)
Lemma is_ip_blocked_last (c : clock) ip reason until created bl rl :
  Forall (λ r, block_ip_address r ≠ ip) bl →
  is_ip_blocked c ip (Db (bl ++ [BlockRow ip reason until created]) rl)
  = if until >? utc c
    then (true, Db (bl ++ [BlockRow ip reason until created]) rl)
    else (false, Db bl rl).
Proof.
  intros Hnb. unfold is_ip_blocked. cbn [ip_blocklist rate_limits].
  rewrite !filter_app, filter_block_none, filter_block_all by done.
  rewrite filter_cons_True, filter_nil by done.
  rewrite filter_cons_False, filter_nil by (simpl; intros H; by apply H).
  simpl. by rewrite app_nil_r.
Qed.

(** Once the guard has dropped an expired block, the call goes on as
    on the database without it. *)
Lemma check_after_guard limits (c : clock) req endpoint d d1 :
  is_ip_blocked c (default "unknown" (client_host req)) d = (false, d1) →
  is_ip_blocked c (default "unknown" (client_host req)) d1 = (false, d1) →
  check_rate_limit limits c req endpoint d = check_rate_limit limits c req endpoint d1.
Proof. intros H H1. unfold check_rate_limit. by rewrite H, H1. Qed.

(** C1, as amended.  Take the policy of five requests per 60 seconds
    for the endpoint, a server whose local time is UTC, an IP without
    a block and without a request for the endpoint in the last 60
    seconds, and six calls of [check_rate_limit] for that IP and
    endpoint inside one 60-second window.  The first five are allowed;
    the sixth is rejected with "Rate limit exceeded" and blocks the IP
    for [ip_block_duration] (86400 seconds).  A later call is rejected
    with "IP address blocked" for as long as the block lasts, also
    after the 60-second window has elapsed; a call made once the block
    has expired is allowed again. *)
Theorem rate_limit_boundary (limits : gmap string policy) (req : request)
    (endpoint : option string) (d0 : db) (t1 t2 t3 t4 t5 t6 : time) :
  let ip := default "unknown" (client_host req) in
  let ep := default (url_path req) endpoint in
  limits !! ep = Some (Policy 5 60) →
  is_Some (limits !! "default") →
  Forall (λ r, block_ip_address r ≠ ip) (ip_blocklist d0) →
  Forall (λ r, rate_ip_address r = ip → rate_endpoint r = ep →
               created_at r < t1 - 60 * 1000000) (rate_limits d0) →
  datetime_min + 60 * 1000000 ≤ t1 →
  t1 ≤ t2 → t2 ≤ t3 → t3 ≤ t4 → t4 ≤ t5 → t5 ≤ t6 →
  t6 ≤ t1 + 60 * 1000000 →
  t6 + 86400 * 1000000 ≤ datetime_max →
  ∃ d6,
    calls limits req endpoint (utc_clock <$> [t1; t2; t3; t4; t5; t6]) d0
    = ([Allowed; Allowed; Allowed; Allowed; Allowed;
        Rejected 429 "Rate limit exceeded"], d6)
    ∧ (∀ t7, t7 < t6 + 86400 * 1000000 →
         check_rate_limit limits (utc_clock t7) req endpoint d6
         = (Rejected 429 "IP address blocked", d6))
    ∧ (∀ t7, t6 + 86400 * 1000000 ≤ t7 → t7 ≤ datetime_max →
         fst (check_rate_limit limits (utc_clock t7) req endpoint d6) = Allowed).
Proof.
  intros ip ep Hpol Hdef Hnb Hold Hmin H12 H23 H34 H45 H56 H61 Hmax.
  destruct d0 as [bl rl]. cbn [ip_blocklist rate_limits] in Hnb, Hold.
  assert (Hmax' : datetime_max = 253402300799999999) by reflexivity.
  assert (Hmin' : datetime_min = -62135596800000000) by reflexivity.
  assert (Hold' : ∀ t, t1 ≤ t →
            get_rate_limit_count ip ep (t - 60 * 1000000) (Db bl rl) = 0).
  { intros t Ht. apply count_old. eapply Forall_impl; [exact Hold |].
    simpl. intros r Hr Hip Hep. specialize (Hr Hip Hep). lia. }
  pose (row := λ t : time, RateRow ip ep 1 t).
  assert (Hallow : ∀ t rows,
            Forall (λ r, block_ip_address r ≠ ip) bl →
            t1 ≤ t → t ≤ t6 →
            get_rate_limit_count ip ep (t - 60 * 1000000) (Db bl (rl ++ rows)) < 5 →
            check_rate_limit limits (utc_clock t) req endpoint (Db bl (rl ++ rows))
            = (Allowed, Db bl (rl ++ (rows ++ [row t])))).
  { intros t rows Hb Ht1 Ht6 Hcount.
    rewrite (check_allowed limits req endpoint Hpol Hdef t) by (done || lia).
    unfold increment_rate_limit. cbn [ip_blocklist rate_limits utc].
    by rewrite <- app_assoc. }
  assert (Hone : ∀ t t', 0 ≤ get_rate_limit_count ip ep t (Db bl [row t']) ≤ 1).
  { intros t t'. unfold row. rewrite count_one. case_decide; lia. }
  assert (Hin : ∀ t t', t ≤ t' → get_rate_limit_count ip ep t (Db bl [row t']) = 1).
  { intros t t' Ht. unfold row. rewrite count_one. by rewrite decide_True. }
  assert (Hout : ∀ t t', t' < t → get_rate_limit_count ip ep t (Db bl [row t']) = 0).
  { intros t t' Ht. unfold row. rewrite count_one. rewrite decide_False; [done | lia]. }
  pose proof (Hallow t1 [] Hnb) as E1. rewrite app_nil_r in E1. simpl in E1.
  specialize (E1 ltac:(lia) ltac:(lia)).
  rewrite (Hold' t1) in E1 by lia. specialize (E1 ltac:(lia)).
  pose proof (Hallow t2 [row t1] Hnb ltac:(lia) ltac:(lia)) as E2.
  rewrite count_app, (Hold' t2) in E2 by lia.
  pose proof (Hone (t2 - 60 * 1000000) t1).
  specialize (E2 ltac:(lia)). simpl in E2.
  pose proof (Hallow t3 [row t1; row t2] Hnb ltac:(lia) ltac:(lia)) as E3.
  change [row t1; row t2] with ([row t1] ++ [row t2]) in E3 at 1.
  rewrite !count_app, (Hold' t3) in E3 by lia.
  pose proof (Hone (t3 - 60 * 1000000) t1). pose proof (Hone (t3 - 60 * 1000000) t2).
  specialize (E3 ltac:(lia)). simpl in E3.
  pose proof (Hallow t4 [row t1; row t2; row t3] Hnb ltac:(lia) ltac:(lia)) as E4.
  change [row t1; row t2; row t3] with ([row t1] ++ [row t2] ++ [row t3]) in E4 at 1.
  rewrite !count_app, (Hold' t4) in E4 by lia.
  pose proof (Hone (t4 - 60 * 1000000) t1). pose proof (Hone (t4 - 60 * 1000000) t2).
  pose proof (Hone (t4 - 60 * 1000000) t3).
  specialize (E4 ltac:(lia)). simpl in E4.
  pose proof (Hallow t5 [row t1; row t2; row t3; row t4] Hnb ltac:(lia) ltac:(lia)) as E5.
  change [row t1; row t2; row t3; row t4]
    with ([row t1] ++ [row t2] ++ [row t3] ++ [row t4]) in E5 at 1.
  rewrite !count_app, (Hold' t5) in E5 by lia.
  pose proof (Hone (t5 - 60 * 1000000) t1). pose proof (Hone (t5 - 60 * 1000000) t2).
  pose proof (Hone (t5 - 60 * 1000000) t3). pose proof (Hone (t5 - 60 * 1000000) t4).
  specialize (E5 ltac:(lia)). simpl in E5.
  set (rows5 := [row t1; row t2; row t3; row t4; row t5]) in *.
  set (brow := BlockRow ip "rate_limit_exceeded" (t6 + 86400 * 1000000) t6).
  assert (E6 : check_rate_limit limits (utc_clock t6) req endpoint (Db bl (rl ++ rows5))
               = (Rejected 429 "Rate limit exceeded",
                  Db (bl ++ [brow]) (rl ++ rows5))).
  { rewrite (check_exceeded limits req endpoint Hpol Hdef t6); [| done | lia | lia |].
    - unfold block_ip. cbn [utc utc_clock ip_blocklist rate_limits].
      rewrite plus_block_duration by lia.
      by rewrite upsert_fresh.
    - fold ip. fold ep. unfold rows5.
      change [row t1; row t2; row t3; row t4; row t5]
        with ([row t1] ++ [row t2] ++ [row t3] ++ [row t4] ++ [row t5]).
      rewrite !count_app, (Hold' t6) by lia.
      rewrite !Hin by lia. lia. }
  exists (Db (bl ++ [brow]) (rl ++ rows5)). split; [| split].
  - simpl fmap.
    rewrite calls_cons, E1, calls_cons, E2, calls_cons, E3, calls_cons, E4,
      calls_cons, E5, calls_cons, E6.
    reflexivity.
  - intros t7 Ht7. unfold check_rate_limit. fold ip.
    unfold brow. rewrite is_ip_blocked_last by done. simpl.
    destruct (Z.gtb_spec (t6 + 86400 * 1000000) t7); [done | lia].
  - intros t7 Ht7 Ht7max.
    assert (Hguard : is_ip_blocked (utc_clock t7) ip (Db (bl ++ [brow]) (rl ++ rows5))
                     = (false, Db bl (rl ++ rows5))).
    { unfold brow. rewrite is_ip_blocked_last by done. simpl.
      destruct (Z.gtb_spec (t6 + 86400 * 1000000) t7); [lia | done]. }
    rewrite (check_after_guard _ _ _ _ _ _ Hguard)
      by (by apply is_ip_blocked_clear).
    rewrite (check_allowed limits req endpoint Hpol Hdef t7); [done | done | lia | done |].
    fold ip. fold ep. unfold rows5.
    change [row t1; row t2; row t3; row t4; row t5]
      with ([row t1] ++ [row t2] ++ [row t3] ++ [row t4] ++ [row t5]).
    rewrite !count_app, (Hold' t7) by lia.
    rewrite !Hout by lia. lia.
Qed.

End RateLimitFacts.

(** ** The rate limiter on a concrete run *)

Section RateLimitExamples.

Import AuthMiddleware.

Lemma rate_limit_boundary_witness :
  Scenario.limits_5_60 !! "/x" = Some (Policy 5 60)
  ∧ ∃ d6,
      calls Scenario.limits_5_60 Scenario.req (Some "/x")
        (utc_clock <$> [Scenario.after 0; Scenario.after 1; Scenario.after 2;
                        Scenario.after 3; Scenario.after 4; Scenario.after 5])
        (Db [] [])
      = ([Allowed; Allowed; Allowed; Allowed; Allowed;
          Rejected 429 "Rate limit exceeded"], d6)
      ∧ check_rate_limit Scenario.limits_5_60 (utc_clock (Scenario.after 120))
          Scenario.req (Some "/x") d6
        = (Rejected 429 "IP address blocked", d6)
      ∧ fst (check_rate_limit Scenario.limits_5_60 (utc_clock (Scenario.after 86405))
               Scenario.req (Some "/x") d6)
        = Allowed.
Proof.
  assert (Hpol : Scenario.limits_5_60 !! "/x" = Some (Policy 5 60))
    by (vm_compute; reflexivity).
  split; [exact Hpol |].
  destruct (rate_limit_boundary Scenario.limits_5_60 Scenario.req (Some "/x") (Db [] [])
              (Scenario.after 0) (Scenario.after 1) (Scenario.after 2)
              (Scenario.after 3) (Scenario.after 4) (Scenario.after 5))
    as (d6 & Hcalls & Hblocked & Hfree);
    try (unfold Scenario.after, Scenario.t0, datetime_min, datetime_max; lia).
  - exact Hpol.
  - exists (Policy 100 3600). vm_compute. reflexivity.
  - constructor.
  - constructor.
  - exists d6. split; [exact Hcalls |]. split.
    + apply Hblocked. unfold Scenario.after, Scenario.t0. lia.
    + apply Hfree; unfold Scenario.after, Scenario.t0, datetime_max; lia.
Defined.

(** C1, as stated, fails: the sixth call blocks the IP for a day, so
    a call made after the 60-second window has elapsed is rejected
    too. *)
Lemma rate_limit_blocked_after_window :
  let '(verdicts, d6) :=
    calls Scenario.limits_5_60 Scenario.req (Some "/x")
      (utc_clock <$> [Scenario.after 0; Scenario.after 1; Scenario.after 2;
                      Scenario.after 3; Scenario.after 4; Scenario.after 5])
      (Db [] []) in
  verdicts = [Allowed; Allowed; Allowed; Allowed; Allowed;
              Rejected 429 "Rate limit exceeded"]
  ∧ fst (check_rate_limit Scenario.limits_5_60 (utc_clock (Scenario.after 120))
           Scenario.req (Some "/x") d6)
    = Rejected 429 "IP address blocked"
  ∧ fst (check_rate_limit Scenario.limits_5_60 (utc_clock (Scenario.after 120))
           Scenario.req (Some "/x") d6)
    ≠ Allowed.
Proof. vm_compute. split; [reflexivity |]. split; [reflexivity | discriminate]. Qed.

(** The window starts at the naive local time less the window length,
    while the rows are stamped in UTC: on a server seven hours ahead of
    UTC no row is ever inside the window, and a sixth call inside the
    minute is allowed as well. *)
Lemma rate_limit_local_clock_ahead :
  fst (calls Scenario.limits_5_60 Scenario.req (Some "/x")
         [Clock (Scenario.after 0) (Scenario.after 25200);
          Clock (Scenario.after 1) (Scenario.after 25201);
          Clock (Scenario.after 2) (Scenario.after 25202);
          Clock (Scenario.after 3) (Scenario.after 25203);
          Clock (Scenario.after 4) (Scenario.after 25204);
          Clock (Scenario.after 5) (Scenario.after 25205)]
         (Db [] []))
  = [Allowed; Allowed; Allowed; Allowed; Allowed; Allowed].
Proof. vm_compute. reflexivity. Qed.

End RateLimitExamples.


(** * Further properties *)

(** ** More on insertion-ordered dicts *)

Section OdictMore.

Import LoadBalancerMore.

Lemma od_set_same {A} (d : odict A) k v : od_get k d = Some v → od_set k v d = d.
Proof.
  induction d as [|[k' v'] d IH]; simpl; [discriminate |].
  destruct (String.eqb_spec k' k) as [->|Hne].
  - by intros [= ->].
  - intros H. by rewrite IH.
Qed.

Lemma od_set_twice {A} (d : odict A) k v v' : od_set k v' (od_set k v d) = od_set k v' d.
Proof.
  induction d as [|[k0 v0] d IH]; simpl.
  - by rewrite String.eqb_refl.
  - destruct (String.eqb_spec k0 k) as [->|Hne]; simpl.
    + by rewrite String.eqb_refl.
    + destruct (String.eqb_spec k0 k); [done |]. by rewrite IH.
Qed.

Lemma od_get_None_keys {A} (d : odict A) k : od_get k d = None ↔ k ∉ d.*1.
Proof.
  rewrite <- od_get_keys. split.
  - intros -> [? ?]. discriminate.
  - intros H. destruct (od_get k d); [exfalso; eauto | done].
Qed.

Lemma od_fromkeys_get (keys : list string) (v : Z) k :
  od_get k (od_fromkeys keys v) = if decide (k ∈ keys) then Some v else None.
Proof.
  destruct (decide (k ∈ keys)) as [Hin|Hout].
  - assert (Hk : k ∈ (od_fromkeys keys v).*1) by by apply od_fromkeys_keys.
    apply od_get_keys in Hk as [c Hc]. rewrite Hc. f_equal.
    apply od_get_elem in Hc.
    pose proof (od_fromkeys_Forall (λ kv, kv.2 = v) keys v (λ _, eq_refl)) as Hall.
    rewrite Forall_forall in Hall. apply (Hall _ Hc).
  - apply od_get_None_keys. by rewrite od_fromkeys_keys.
Qed.

Lemma total_set (d : odict Z) k c v :
  od_get k d = Some c → total (od_set k v d) = total d - c + v.
Proof.
  induction d as [|[k' v'] d IH]; simpl; [discriminate |].
  destruct (String.eqb_spec k' k) as [->|Hne]; simpl.
  - intros [= ->]. lia.
  - intros H. rewrite IH by done. lia.
Qed.

End OdictMore.

(** ** More on the load balancer *)

Section LoadBalancerMoreFacts.

Import LoadBalancer LoadBalancerInv LoadBalancerMore.

(** One call on a service with instances, whatever its algorithm. *)
Lemma next_step name svc conns self :
  services self !! name = Some svc →
  active_connections self !! name = Some conns → service_ok svc conns →
  instances svc ≠ [] →
  ∃ inst c i',
    get_next_instance name self =
      (Return (Some inst),
       {| services := <[name := with_index svc i']> (services self);
          active_connections :=
            <[name := od_set inst (c + 1) conns]> (active_connections self) |})
    ∧ inst ∈ instances svc
    ∧ od_get inst conns = Some c ∧ 0 ≤ c
    ∧ service_ok (with_index svc i') (od_set inst (c + 1) conns)
    ∧ (algorithm svc = "round_robin" →
       i' = (current_index svc + 1) `mod` Z.of_nat (length (instances svc))
       ∧ instances svc !! Z.to_nat (current_index svc) = Some inst)
    ∧ (algorithm svc ≠ "round_robin" → i' = current_index svc)
    ∧ (algorithm svc ≠ "round_robin" → algorithm svc ≠ "least_connections" →
       instances svc !! 0%nat = Some inst).
Proof.
  intros Hsvc Hconns Hok Hne.
  pose proof Hok as (H0 & Hlt & Hnil & _).
  assert (Hlen : 0 < Z.of_nat (length (instances svc)))
    by (destruct (instances svc); [done | simpl; lia]).
  assert (Hid : <[name := with_index svc (current_index svc)]> (services self)
                = services self)
    by (rewrite with_index_id; by apply insert_id).
  destruct (decide (algorithm svc = "round_robin")) as [Hrr|Hrr].
  { destruct (next_round_robin _ _ _ _ Hsvc Hconns Hok Hne Hrr)
      as (inst & c & Hinst & Hc & Hc0 & Hnext).
    exists inst, c, ((current_index svc + 1) `mod` Z.of_nat (length (instances svc))).
    split; [exact Hnext |].
    split; [eapply list_elem_of_lookup_2; eauto |].
    split; [done |]. split; [done |]. split.
    - apply service_ok_set; try done.
      + apply od_get_keys. eauto.
      + lia.
      + by apply Z.mod_pos_bound.
      + intros _. by apply Z.mod_pos_bound.
    - split; [done |]. split; intros; done. }
  destruct (decide (algorithm svc = "least_connections")) as [Hlc|Hlc].
  { destruct (next_least_connections _ _ _ _ Hsvc Hconns Hok Hne Hlc)
      as (pre & inst & c & post & -> & Hinst & Hout & Hc0 & Hpre & Hpost & Hnext).
    exists inst, c, (current_index svc).
    rewrite Hid, od_set_split by done. split; [exact Hnext |].
    split; [done |]. split; [by apply od_get_split |]. split; [done |]. split.
    - rewrite <- (od_set_split pre post inst c (c + 1)) by done.
      apply service_ok_set; try done; [| lia].
      rewrite fmap_app. apply elem_of_app. right. left.
    - split; [done |]. split; [done |]. intros _ H. done. }
  destruct (next_fallback _ _ _ _ Hsvc Hconns Hok Hne Hrr Hlc)
    as (inst & c & Hinst & Hc & Hc0 & Hnext).
  exists inst, c, (current_index svc). rewrite Hid. split; [exact Hnext |].
  split; [eapply list_elem_of_lookup_2; eauto |].
  split; [done |]. split; [done |]. split.
  - apply service_ok_set; try done; [| lia]. apply od_get_keys. eauto.
  - split; [done |]. split; done.
Qed.

(** What the state after that call holds for the service. *)
Lemma next_step_lookup name (svc' : service) (conns' : odict Z) self :
  services {| services := <[name := svc']> (services self);
              active_connections := <[name := conns']> (active_connections self) |}
    !! name = Some svc'
  ∧ active_connections
      {| services := <[name := svc']> (services self);
         active_connections := <[name := conns']> (active_connections self) |}
      !! name = Some conns'.
Proof. simpl. by rewrite !lookup_insert_eq. Qed.

(** X1.  [register_service] starts the service afresh: whatever was
    registered under the name, the entry now has the given instances
    and algorithm, cursor [0], every instance healthy and with no
    connection, and nothing kept for any other address; the other
    services are not touched. *)
Theorem register_service_resets (self : t) (name alg : string) (insts : list string) :
  let self' := register_service name insts alg self in
  ∃ svc conns,
    services self' !! name = Some svc
    ∧ active_connections self' !! name = Some conns
    ∧ instances svc = insts ∧ algorithm svc = alg ∧ current_index svc = 0
    ∧ (∀ i, health_status svc !! i = if decide (i ∈ insts) then Some true else None)
    ∧ (∀ i, od_get i conns = if decide (i ∈ insts) then Some 0 else None)
    ∧ (∀ name', name' ≠ name →
         services self' !! name' = services self !! name'
         ∧ active_connections self' !! name' = active_connections self !! name').
Proof.
  cbv zeta. unfold register_service. simpl. rewrite !lookup_insert_eq.
  eexists _, _. split; [done |]. split; [done |]. simpl.
  split; [done |]. split; [done |]. split; [done |]. split; [| split].
  - intros i.
    assert (Hgen : ∀ (l : list string) (m : gmap string bool),
              fold_left (λ m i, <[i := true]> m) l m !! i
              = if decide (i ∈ l) then Some true else m !! i).
    { induction l as [|x l IH]; intros m; simpl.
      - destruct (decide (i ∈ [])) as [H|_]; [inversion H | done].
      - rewrite IH. destruct (decide (i ∈ l)) as [Hin|Hout].
        + rewrite decide_True; [done | by right].
        + destruct (decide (x = i)) as [->|Hne].
          * rewrite lookup_insert_eq. rewrite decide_True; [done | left].
          * rewrite lookup_insert_ne by done. rewrite decide_False; [done |].
            intros H. inversion H; subst; done. }
    rewrite Hgen. destruct (decide (i ∈ insts)); [done | apply lookup_empty].
  - intros i. apply od_fromkeys_get.
  - intros name' Hne. by rewrite !lookup_insert_ne.
Qed.

(** Successive calls on a service with some other algorithm. *)
Lemma next_n_fallback n name svc conns inst0 self :
  services self !! name = Some svc →
  active_connections self !! name = Some conns → service_ok svc conns →
  algorithm svc ≠ "round_robin" → algorithm svc ≠ "least_connections" →
  instances svc !! 0%nat = Some inst0 →
  fst (next_n n name self) = replicate n (Return (Some inst0)).
Proof.
  revert self conns. induction n as [|n IH]; intros self conns Hsvc Hconns Hok Hrr Hlc H0;
    [done |].
  assert (Hne : instances svc ≠ []) by (intros E; rewrite E in H0; discriminate).
  destruct (next_step _ _ _ _ Hsvc Hconns Hok Hne)
    as (inst & c & i' & Hnext & _ & _ & _ & Hok' & _ & Hi' & Hfirst).
  rewrite (Hi' Hrr), with_index_id in Hnext, Hok'.
  specialize (Hfirst Hrr Hlc). rewrite H0 in Hfirst. injection Hfirst as <-.
  simpl. rewrite Hnext.
  match goal with |- context [next_n n name ?s] =>
    pose proof (IH s _ (proj1 (next_step_lookup name svc _ self))
                  (proj2 (next_step_lookup name svc _ self)) Hok' Hrr Hlc H0) as IHs;
    destruct (next_n n name s) as [rs s2] end.
  simpl in *. by rewrite IHs.
Qed.

(** X2.  An algorithm other than ["round_robin"] and
    ["least_connections"] (["weighted"], say) never moves on: on every
    object reached by calls of the methods, all of [n] successive
    calls answer the first instance of the list. *)
Theorem fallback_always_first (ops : list op) (name : string) (svc : service)
    (inst0 : string) (n : nat) :
  services (run ops init) !! name = Some svc →
  algorithm svc ≠ "round_robin" →
  algorithm svc ≠ "least_connections" →
  instances svc !! 0%nat = Some inst0 →
  fst (next_n n name (run ops init)) = replicate n (Return (Some inst0)).
Proof.
  intros Hsvc Hrr Hlc H0.
  destruct (proj1 (wf_reachable ops) _ _ Hsvc) as (conns & Hconns & Hok).
  by eapply next_n_fallback.
Qed.

(** X3.  The selection never looks at the health status: a health
    check, whatever its probes find, changes no answer of
    [get_next_instance], and the two calls can be swapped. *)
Theorem selection_ignores_health (probe : nat → string → probe_result)
    (name name' : string) (self : t) :
  get_next_instance name (health_check probe name' self)
  = (fst (get_next_instance name self),
     health_check probe name' (snd (get_next_instance name self))).
Proof.
  destruct (services self !! name') as [svc'|] eqn:Hsvc'.
  2:{ assert (Hid : health_check probe name' self = self)
        by (unfold health_check; by rewrite Hsvc').
      rewrite Hid. unfold get_next_instance.
      destruct (services self !! name) as [svc|] eqn:Hsvc; [| cbn [fst snd]; by rewrite Hid].
      assert (Hne : name ≠ name') by (intros ->; congruence).
      destruct (instances svc) as [|i0 l] eqn:Hl; [cbn [fst snd]; by rewrite Hid |].
      destruct (String.eqb (algorithm svc) "round_robin").
      - destruct (index (i0 :: l) (current_index svc)) as [inst|]; [| cbn [fst snd]; by rewrite Hid].
        unfold select; simpl.
        destruct (active_connections self !! name) as [conns|]; simpl.
        + destruct (od_get inst conns); simpl; unfold health_check; simpl;
            rewrite lookup_insert_ne by done; by rewrite Hsvc'.
        + unfold health_check; simpl. rewrite lookup_insert_ne by done. by rewrite Hsvc'.
      - destruct (String.eqb (algorithm svc) "least_connections").
        + destruct (active_connections self !! name) as [conns|] eqn:Hc;
            [| cbn [fst snd]; by rewrite Hid].
          destruct (od_min conns) as [m|]; [| cbn [fst snd]; by rewrite Hid].
          unfold select. rewrite Hc.
          destruct (od_get m conns); simpl; [| cbn [fst snd]; by rewrite Hid].
          unfold health_check; simpl. by rewrite Hsvc'.
        + destruct (index (i0 :: l) 0) as [inst|]; [| cbn [fst snd]; by rewrite Hid].
          unfold select.
          destruct (active_connections self !! name) as [conns|]; [| cbn [fst snd]; by rewrite Hid].
          destruct (od_get inst conns); simpl; [| cbn [fst snd]; by rewrite Hid].
          unfold health_check; simpl. by rewrite Hsvc'. }
  destruct (decide (name = name')) as [<-|Hne].
  - unfold health_check at 1. rewrite Hsvc'.
    unfold get_next_instance. simpl. rewrite lookup_insert_eq, Hsvc'. simpl.
    destruct (instances svc') as [|i0 l] eqn:Hl.
    { simpl. unfold health_check. by rewrite Hsvc', Hl. }
    destruct (String.eqb (algorithm svc') "round_robin").
    + destruct (index (i0 :: l) (current_index svc')) as [inst|]; simpl.
      2:{ unfold health_check. by rewrite Hsvc', Hl. }
      rewrite insert_insert_eq. unfold select; simpl.
      destruct (active_connections self !! name) as [conns|]; simpl.
      * destruct (od_get inst conns); simpl; unfold health_check; simpl;
          rewrite lookup_insert_eq; simpl; by rewrite insert_insert_eq.
      * unfold health_check; simpl. rewrite lookup_insert_eq. simpl.
        by rewrite insert_insert_eq.
    + destruct (String.eqb (algorithm svc') "least_connections").
      * destruct (active_connections self !! name) as [conns|] eqn:Hc; simpl.
        2:{ unfold health_check. by rewrite Hsvc', Hl. }
        destruct (od_min conns) as [m|]; simpl.
        2:{ unfold health_check. by rewrite Hsvc', Hl. }
        unfold select; simpl. rewrite Hc.
        destruct (od_get m conns); simpl; unfold health_check; simpl;
          by rewrite Hsvc', Hl.
      * destruct (index (i0 :: l) 0) as [inst|]; simpl.
        2:{ unfold health_check. by rewrite Hsvc', Hl. }
        unfold select; simpl.
        destruct (active_connections self !! name) as [conns|]; simpl.
        -- destruct (od_get inst conns); simpl; unfold health_check; simpl;
             by rewrite Hsvc', Hl.
        -- unfold health_check. by rewrite Hsvc', Hl.
  - unfold health_check at 1. rewrite Hsvc'.
    unfold get_next_instance. simpl. rewrite lookup_insert_ne by done.
    destruct (services self !! name) as [svc|] eqn:Hsvc.
    2:{ simpl. unfold health_check. by rewrite Hsvc'. }
    destruct (instances svc) as [|i0 l] eqn:Hl.
    { simpl. unfold health_check. by rewrite Hsvc'. }
    destruct (String.eqb (algorithm svc) "round_robin").
    + destruct (index (i0 :: l) (current_index svc)) as [inst|]; simpl.
      2:{ unfold health_check. by rewrite Hsvc'. }
      unfold select; simpl.
      destruct (active_connections self !! name) as [conns|]; simpl.
      * destruct (od_get inst conns); simpl; unfold health_check; simpl;
          rewrite lookup_insert_ne by done; rewrite Hsvc';
          by rewrite insert_insert_ne.
      * unfold health_check; simpl. rewrite lookup_insert_ne by done. rewrite Hsvc'.
        by rewrite insert_insert_ne.
    + destruct (String.eqb (algorithm svc) "least_connections").
      * destruct (active_connections self !! name) as [conns|] eqn:Hc; simpl.
        2:{ unfold health_check. by rewrite Hsvc'. }
        destruct (od_min conns) as [m|]; simpl.
        2:{ unfold health_check. by rewrite Hsvc'. }
        unfold select; simpl. rewrite Hc.
        destruct (od_get m conns); simpl; unfold health_check; simpl; by rewrite Hsvc'.
      * destruct (index (i0 :: l) 0) as [inst|]; simpl.
        2:{ unfold health_check. by rewrite Hsvc'. }
        unfold select; simpl.
        destruct (active_connections self !! name) as [conns|]; simpl.
        -- destruct (od_get inst conns); simpl; unfold health_check; simpl;
             by rewrite Hsvc'.
        -- unfold health_check. by rewrite Hsvc'.
Qed.

(** Successive [round_robin] calls walk the list from the cursor. *)
Lemma next_n_round_robin n name svc conns self :
  services self !! name = Some svc →
  active_connections self !! name = Some conns → service_ok svc conns →
  instances svc ≠ [] → algorithm svc = "round_robin" →
  let len := length (instances svc) in
  let c0 := Z.to_nat (current_index svc) in
  fst (next_n n name self)
  = (λ k, Return (instances svc !! ((c0 + k) `mod` len)%nat)) <$> seq 0 n
  ∧ services (snd (next_n n name self)) !! name
    = Some (with_index svc (Z.of_nat ((c0 + n) `mod` len)%nat)).
Proof.
  revert self svc conns.
  induction n as [|n IH]; intros self svc conns Hsvc Hconns Hok Hne Hrr len c0.
  - simpl. split; [done |]. rewrite Nat.add_0_r.
    destruct Hok as (H0 & Hlt & _). specialize (Hlt Hne).
    rewrite Nat.mod_small by (unfold c0, len; lia).
    unfold c0. rewrite Z2Nat.id by done. by rewrite with_index_id.
  - pose proof Hok as (H0 & Hlt & _). specialize (Hlt Hne).
    assert (Hlen : (0 < len)%nat) by (unfold len; destruct (instances svc); [done | simpl; lia]).
    destruct (next_step _ _ _ _ Hsvc Hconns Hok Hne)
      as (inst & c & i' & Hnext & _ & _ & _ & Hok' & Hi' & _).
    destruct (Hi' Hrr) as [-> Hinst].
    set (svc1 := with_index svc
                   ((current_index svc + 1) `mod` Z.of_nat (length (instances svc)))) in *.
    assert (Hc1 : Z.to_nat ((current_index svc + 1) `mod` Z.of_nat (length (instances svc)))
                  = ((c0 + 1) `mod` len)%nat).
    { unfold c0, len.
      rewrite Z2Nat.inj_mod by lia. rewrite Z2Nat.inj_add by lia.
      by rewrite Nat2Z.id. }
    simpl next_n. rewrite Hnext.
    match goal with |- context [next_n n name ?s] =>
      destruct (IH s svc1 _ (proj1 (next_step_lookup name svc1 _ self))
                  (proj2 (next_step_lookup name svc1 _ self)) Hok' Hne Hrr) as [IH1 IH2];
      destruct (next_n n name s) as [rs s2] end.
    simpl in IH1, IH2. simpl fst. simpl snd. split.
    + simpl. f_equal.
      * rewrite Nat.add_0_r, Nat.mod_small by (unfold c0, len; lia).
        unfold c0. by rewrite Hinst.
      * rewrite IH1, <- fmap_S_seq, <- list_fmap_compose.
        apply list_fmap_ext. intros _ k _. simpl. rewrite Hc1. fold len.
        do 2 f_equal. rewrite Nat.Div0.add_mod_idemp_l. f_equal. lia.
    + rewrite IH2. unfold svc1, with_index. simpl. do 3 f_equal.
      rewrite Hc1. fold len. rewrite Nat.Div0.add_mod_idemp_l. f_equal. lia.
Qed.

(** X4.  Round robin walks the list in order and wraps around: on every
    object reached by calls of the methods, the [k]-th of [n] successive
    calls on a [round_robin] service with instances answers
    [instances[(cursor + k) mod len(instances)]], and afterwards the
    cursor is [(cursor + n) mod len(instances)]; a full turn of
    [len(instances)] calls brings it back. *)
Theorem round_robin_walk (ops : list op) (name : string) (svc : service) (n : nat) :
  services (run ops init) !! name = Some svc →
  algorithm svc = "round_robin" →
  instances svc ≠ [] →
  let len := length (instances svc) in
  let c0 := Z.to_nat (current_index svc) in
  fst (next_n n name (run ops init))
  = (λ k, Return (instances svc !! ((c0 + k) `mod` len)%nat)) <$> seq 0 n
  ∧ services (snd (next_n n name (run ops init))) !! name
    = Some (with_index svc (Z.of_nat ((c0 + n) `mod` len)%nat))
  ∧ services (snd (next_n len name (run ops init))) !! name = Some svc.
Proof.
  intros Hsvc Hrr Hne len c0.
  destruct (proj1 (wf_reachable ops) _ _ Hsvc) as (conns & Hconns & Hok).
  destruct (next_n_round_robin n _ _ _ _ Hsvc Hconns Hok Hne Hrr) as [H1 H2].
  split; [exact H1 |]. split; [exact H2 |].
  destruct (next_n_round_robin len _ _ _ _ Hsvc Hconns Hok Hne Hrr) as [_ H3].
  rewrite H3. f_equal. fold len. fold c0.
  destruct Hok as (H0 & Hlt & _). specialize (Hlt Hne).
  assert (Hlen : (0 < len)%nat) by (unfold len; destruct (instances svc); [done | simpl; lia]).
  replace ((c0 + len) `mod` len)%nat with c0.
  - unfold c0. rewrite Z2Nat.id by done. apply with_index_id.
  - rewrite <- Nat.Div0.add_mod_idemp_r, Nat.Div0.mod_same, Nat.add_0_r.
    symmetry. apply Nat.mod_small. unfold c0, len. lia.
Qed.

(** X5.  Releasing the instance a call has just answered restores the
    connection counts: on every object reached by calls of the methods,
    [get_next_instance] followed by [release_instance] of its answer
    leaves [active_connections] as it was. *)
Theorem release_undoes_selection (ops : list op) (name inst : string) (self' : t) :
  get_next_instance name (run ops init) = (Return (Some inst), self') →
  active_connections (release_instance name inst self')
  = active_connections (run ops init).
Proof.
  intros Hnext.
  destruct (services (run ops init) !! name) as [svc|] eqn:Hsvc;
    [| unfold get_next_instance in Hnext; rewrite Hsvc in Hnext; discriminate].
  destruct (decide (instances svc = [])) as [Hnil|Hne];
    [unfold get_next_instance in Hnext; rewrite Hsvc, Hnil in Hnext; discriminate |].
  destruct (proj1 (wf_reachable ops) _ _ Hsvc) as (conns & Hconns & Hok).
  destruct (next_step _ _ _ _ Hsvc Hconns Hok Hne)
    as (inst1 & c & i' & Hnext1 & _ & Hc & Hc0 & _).
  pose proof (eq_trans (eq_sym Hnext) Hnext1) as [= -> ->].
  unfold release_instance. simpl. rewrite lookup_insert_eq, od_get_set_eq. simpl.
  rewrite insert_insert_eq, od_set_twice.
  replace (0 `max` (c + 1 - 1)) with c by lia.
  rewrite od_set_same by done. by apply insert_id.
Qed.

(** [n] calls on a service with instances: every call answers one of
    the instances, and each adds one connection. *)
Lemma next_n_total n name svc conns self :
  services self !! name = Some svc →
  active_connections self !! name = Some conns → service_ok svc conns →
  instances svc ≠ [] →
  ∃ conns',
    active_connections (snd (next_n n name self)) !! name = Some conns'
    ∧ total conns' = total conns + Z.of_nat n
    ∧ length (fst (next_n n name self)) = n
    ∧ Forall (λ r, ∃ inst, r = Return (Some inst) ∧ inst ∈ instances svc)
        (fst (next_n n name self)).
Proof.
  revert self svc conns. induction n as [|n IH]; intros self svc conns Hsvc Hconns Hok Hne.
  - exists conns. simpl. split; [done |]. split; [lia |]. split; [done | constructor].
  - destruct (next_step _ _ _ _ Hsvc Hconns Hok Hne)
      as (inst & c & i' & Hnext & Hin & Hc & Hc0 & Hok' & _).
    simpl next_n. rewrite Hnext.
    match goal with |- context [next_n n name ?s] =>
      destruct (IH s (with_index svc i') _
                  (proj1 (next_step_lookup name (with_index svc i') _ self))
                  (proj2 (next_step_lookup name (with_index svc i') _ self)) Hok' Hne)
        as (conns' & Hc' & Htot & Hlen & Hall);
      destruct (next_n n name s) as [rs s2] end.
    simpl in *. exists conns'. split; [done |]. split.
    + rewrite Htot, (total_set _ _ _ _ Hc). lia.
    + split; [by rewrite Hlen |]. constructor; [eauto | done].
Qed.

(** X6.  Every selection is counted once: on every object reached by
    calls of the methods, [n] successive calls on a service with
    instances give [n] answers, each one of its instances, and raise
    the sum of its connection counts by [n]. *)
Theorem selections_are_counted (ops : list op) (name : string) (svc : service) (n : nat) :
  services (run ops init) !! name = Some svc →
  instances svc ≠ [] →
  ∃ conns conns',
    active_connections (run ops init) !! name = Some conns
    ∧ active_connections (snd (next_n n name (run ops init))) !! name = Some conns'
    ∧ total conns' = total conns + Z.of_nat n
    ∧ length (fst (next_n n name (run ops init))) = n
    ∧ Forall (λ r, ∃ inst, r = Return (Some inst) ∧ inst ∈ instances svc)
        (fst (next_n n name (run ops init))).
Proof.
  intros Hsvc Hne.
  destruct (proj1 (wf_reachable ops) _ _ Hsvc) as (conns & Hconns & Hok).
  destruct (next_n_total n _ _ _ _ Hsvc Hconns Hok Hne) as (conns' & H).
  exists conns, conns'. by split.
Qed.

(** Successive [least_connections] calls keep counts that lie within
    one of each other. *)
Lemma next_n_level n name svc conns m self :
  services self !! name = Some svc →
  active_connections self !! name = Some conns → service_ok svc conns →
  algorithm svc = "least_connections" →
  Forall (λ kv, m ≤ kv.2 ≤ m + 1) conns →
  ∃ conns' m',
    active_connections (snd (next_n n name self)) !! name = Some conns'
    ∧ Forall (λ kv, m' ≤ kv.2 ≤ m' + 1) conns'.
Proof.
  revert self conns m.
  induction n as [|n IH]; intros self conns m Hsvc Hconns Hok Hlc Hbal; [by eauto |].
  destruct (decide (instances svc = [])) as [Hnil|Hne].
  { simpl next_n. unfold get_next_instance at 1. rewrite Hsvc, Hnil.
    destruct (IH self conns m Hsvc Hconns Hok Hlc Hbal) as (conns' & m' & H1 & H2).
    destruct (next_n n name self) as [rs s2]. simpl in *. eauto. }
  destruct (next_least_connections _ _ _ _ Hsvc Hconns Hok Hne Hlc)
    as (pre & inst & c & post & -> & Hinst & Hout & Hc0 & Hpre & Hpost & Hnext).
  assert (Hok' : service_ok svc (pre ++ (inst, c + 1) :: post)).
  { rewrite <- (od_set_split pre post inst c (c + 1)) by done.
    rewrite <- (with_index_id svc).
    pose proof Hok as (H0 & Hlt & Hnil & _).
    apply service_ok_set; try done; [| lia].
    rewrite fmap_app. apply elem_of_app. right. left. }
  assert (Hbal' : ∃ m', Forall (λ kv, m' ≤ kv.2 ≤ m' + 1) (pre ++ (inst, c + 1) :: post)).
  { apply Forall_app in Hbal as [Hb1 Hb2]. apply Forall_cons in Hb2 as [Hbc Hb2].
    simpl in Hbc. destruct (decide (c = m)) as [->|Hcm].
    - exists m. apply Forall_app. split; [done |]. constructor; [simpl; lia | done].
    - exists (m + 1). assert (c = m + 1) as -> by lia.
      apply Forall_app. split.
      + rewrite Forall_forall in Hb1, Hpre |- *. intros kv Hkv.
        specialize (Hb1 _ Hkv). specialize (Hpre _ Hkv). simpl in *. lia.
      + constructor; [simpl; lia |].
        rewrite Forall_forall in Hb2, Hpost |- *. intros kv Hkv.
        specialize (Hb2 _ Hkv). specialize (Hpost _ Hkv). simpl in *. lia. }
  destruct Hbal' as [m' Hbal'].
  simpl next_n. rewrite Hnext.
  match goal with |- context [next_n n name ?s] =>
    assert (Hs1 : services s !! name = Some svc) by exact Hsvc;
    assert (Hs2 : active_connections s !! name = Some (pre ++ (inst, c + 1) :: post))
      by (simpl; apply lookup_insert_eq);
    destruct (IH s _ m' Hs1 Hs2 Hok' Hlc Hbal') as (conns' & m'' & H1 & H2);
    destruct (next_n n name s) as [rs s2] end.
  simpl in *. eauto.
Qed.

(** X7.  Least connections keeps the load level: after a registration
    with ["least_connections"], however many calls of
    [get_next_instance] follow, no two connection counts of the
    service differ by more than one. *)
Theorem least_connections_level (self : t) (name : string) (insts : list string) (n : nat) :
  ∃ conns,
    active_connections
      (snd (next_n n name (register_service name insts "least_connections" self)))
      !! name = Some conns
    ∧ level conns.
Proof.
  set (s0 := register_service name insts "least_connections" self).
  set (svc := Service insts "least_connections" 0
                (fold_left (λ (m : gmap string bool) i, <[i := true]> m) insts ∅)).
  assert (Hsvc : services s0 !! name = Some svc)
    by (unfold s0, register_service; simpl; by rewrite lookup_insert_eq).
  assert (Hconns : active_connections s0 !! name = Some (od_fromkeys insts 0))
    by (unfold s0, register_service; simpl; by rewrite lookup_insert_eq).
  destruct (next_n_level n name svc _ 0 s0 Hsvc Hconns (service_ok_fresh _ _ _) eq_refl)
    as (conns' & m' & H1 & H2).
  { apply od_fromkeys_Forall. simpl. lia. }
  exists conns'. split; [exact H1 |].
  intros i j ci cj Hi Hj. apply od_get_elem in Hi, Hj.
  rewrite Forall_forall in H2.
  pose proof (H2 _ Hi). pose proof (H2 _ Hj). simpl in *. lia.
Qed.

End LoadBalancerMoreFacts.

(** ** More on the cache manager *)

Section CacheMoreFacts.

Import CacheManager CacheManagerMore.

Context {V R : Type}.
Variable json_dumps : option V → outcome string.
Variable json_loads : string → outcome (option V).
Variable client_get : time → string → string → R → outcome (option item) * R.
Variable client_put : time → string → string → string → Z → R → outcome unit * R.
Variable client_delete : time → string → string → R → outcome unit * R.
Variable client_list_keys : option (time → string → R → outcome (list string) * R).

Local Abbreviation get := (CacheManager.get json_loads client_get).
Local Abbreviation set := (CacheManager.set json_dumps client_put).
Local Abbreviation delete := (CacheManager.delete client_delete).
Local Abbreviation list_keys := (CacheManager.list_keys client_list_keys).
Local Abbreviation invalidate_by_tag :=
  (CacheManager.invalidate_by_tag client_delete client_list_keys).
Local Abbreviation clear_all := (CacheManager.clear_all client_delete client_list_keys).
Local Abbreviation remove_keys := (CacheManager.remove_keys client_delete).
Local Abbreviation run :=
  (CacheManagerMore.run json_dumps json_loads client_get client_put client_delete
     client_list_keys).
Local Abbreviation wrapper := (CacheManagerMore.wrapper json_dumps json_loads client_get client_put).

Implicit Types (self : t V R) (now : time) (key tag : string).

(** [set] on the process-local store: the entry of the key is the new
    one, or the old one when the date arithmetic raised; the rest of
    the store is as before and no key leaves the registry. *)
Lemma set_memory_cases now key v ttl tags self :
  iron_client self = None →
  iron_client (set now key v ttl tags self) = None
  ∧ (∀ key', key' ≠ key →
       memory_cache (set now key v ttl tags self) !! key' = memory_cache self !! key')
  ∧ (∀ key', key' ∈ key_registry self → key' ∈ key_registry (set now key v ttl tags self))
  ∧ (is_Some (memory_cache (set now key v ttl tags self) !! key) →
     is_Some (memory_cache self !! key) ∨ key ∈ key_registry (set now key v ttl tags self)).
Proof.
  intros Hmem. unfold CacheManager.set, set_try. rewrite Hmem.
  destruct (plus_seconds now ttl) as [expiry|]; simpl.
  - split; [exact Hmem |]. split; [| split].
    + intros key' Hne. by rewrite lookup_insert_ne.
    + intros key' Hin. apply elem_of_union. by right.
    + intros _. right. apply elem_of_union. left. by apply elem_of_singleton.
  - split; [exact Hmem |]. split; [done |]. split; [done |]. by left.
Qed.

Lemma delete_memory now key self :
  iron_client self = None → delete now key self = memory_pop key self.
Proof. intros Hmem. unfold CacheManager.delete, delete_try. by rewrite Hmem. Qed.

(** X8.  A later [set] replaces the entry: on the process-local store,
    after [set(key, v1, ttl1)] and then [set(key, v2, ttl2)] with an
    expiry that is a [datetime], [get(key)] returns [v2] until the
    second expiry and [None] from then on, whatever the first value and
    however long the first [ttl] was. *)
Theorem set_overwrites now1 now2 key v1 v2 ttl1 ttl2 tags1 tags2 self :
  iron_client self = None →
  datetime_min ≤ now2 ≤ datetime_max →
  datetime_min ≤ now2 + ttl2 * 1000000 ≤ datetime_max →
  let self' := set now2 key v2 ttl2 tags2 (set now1 key v1 ttl1 tags1 self) in
  ∀ now', get now' key self'
          = (Return (if now2 + ttl2 * 1000000 >? now' then v2 else None), self').
Proof.
  intros Hmem Hnow Hexp self' now'.
  destruct (set_memory_cases now1 key v1 ttl1 tags1 self Hmem) as (Hmem1 & _).
  assert (Hself' : memory_cache self' !! key = Some (Entry v2 (now2 + ttl2 * 1000000))).
  { unfold self'. rewrite (set_memory json_dumps client_put) by done.
    simpl. apply lookup_insert_eq. }
  assert (Hmem' : iron_client self' = None)
    by (unfold self'; by apply set_memory_cases).
  rewrite (get_memory json_loads client_get) by done. by rewrite Hself'.
Qed.

(** X9.  [set] and [delete] of one key leave every other key alone: on
    the process-local store [get] of another key returns what it
    returned before. *)
Theorem other_keys_untouched now key key' self :
  key' ≠ key →
  iron_client self = None →
  (∀ v ttl tags now',
     fst (get now' key' (set now key v ttl tags self)) = fst (get now' key' self))
  ∧ (∀ now', fst (get now' key' (delete now key self)) = fst (get now' key' self)).
Proof.
  intros Hne Hmem. split.
  - intros v ttl tags now'.
    destruct (set_memory_cases now key v ttl tags self Hmem) as (Hmem1 & Hother & _).
    rewrite !(get_memory json_loads client_get) by done. simpl. by rewrite Hother.
  - intros now'. rewrite delete_memory by done.
    rewrite !(get_memory json_loads client_get) by done. simpl.
    by rewrite lookup_delete_ne.
Qed.

(** On the process-local store every method keeps the store local and
    every stored key registered. *)
Lemma step_registered (o : op) self :
  iron_client self = None → registered self →
  iron_client (step json_dumps json_loads client_get client_put client_delete
                 client_list_keys self o) = None
  ∧ registered (step json_dumps json_loads client_get client_put client_delete
                  client_list_keys self o).
Proof.
  intros Hmem Hreg. destruct o as [now key|now key v ttl tags|now key|now tag|now]; simpl.
  - rewrite (get_memory json_loads client_get) by done. done.
  - destruct (set_memory_cases now key v ttl tags self Hmem) as (Hmem1 & Hother & Hkeep & Hnew).
    split; [exact Hmem1 |]. intros k Hk. destruct (decide (k = key)) as [->|Hne].
    + destruct (Hnew Hk) as [Hold|Hin]; [| done]. by apply Hkeep, Hreg.
    + rewrite Hother in Hk by done. by apply Hkeep, Hreg.
  - rewrite delete_memory by done. split; [exact Hmem |].
    intros k Hk. simpl in *. apply Hreg.
    destruct (decide (key = k)) as [->|Hne].
    + rewrite lookup_delete_eq in Hk. by destruct Hk.
    + by rewrite lookup_delete_ne in Hk.
  - unfold CacheManager.invalidate_by_tag, CacheManager.list_keys. rewrite Hmem.
    destruct (remove_keys_memory client_delete (contains tag) now
                (elements (key_registry self)) self Hmem)
      as (self' & -> & Hia & Hcl & _ & Hr & Hm).
    simpl. split; [unfold iron_client in *; by rewrite Hia, Hcl |].
    intros k Hk. rewrite Hm in Hk. apply Hr.
    destruct (decide (k ∈ elements (key_registry self) ∧ contains tag k = true));
      [by destruct Hk | by split; [apply Hreg |]].
  - unfold CacheManager.clear_all, CacheManager.list_keys. rewrite Hmem.
    destruct (remove_keys_memory client_delete (λ _, true) now
                (elements (key_registry self)) self Hmem)
      as (self' & -> & Hia & Hcl & _ & Hr & Hm).
    simpl. split; [unfold iron_client in *; by rewrite Hia, Hcl |].
    intros k Hk. rewrite Hm in Hk. apply Hr.
    destruct (decide (k ∈ elements (key_registry self) ∧ true = true));
      [by destruct Hk | by split; [apply Hreg |]].
Qed.

Lemma run_registered (ops : list op) self :
  iron_client self = None → registered self →
  iron_client (run ops self) = None ∧ registered (run ops self).
Proof.
  revert self. induction ops as [|o ops IH]; intros self Hmem Hreg; [done |].
  unfold CacheManagerMore.run. simpl.
  destruct (step_registered o self Hmem Hreg) as [H1 H2]. by apply IH.
Qed.

Lemma init_registered : registered (init_memory (V := V) (R := R)).
Proof. intros key [e He]. simpl in He. by rewrite lookup_empty in He. Qed.

(** X10.  The registry covers the store: on a manager without
    IronCache, after any calls of its methods, a key for which [get]
    returns a value is among the keys [list_keys()] returns. *)
Theorem list_keys_covers_store (ops : list op) now now' key (v : V) :
  fst (get now' key (run ops init_memory)) = Return (Some v) →
  ∃ keys,
    list_keys now (run ops init_memory) = (Return keys, run ops init_memory)
    ∧ key ∈ keys.
Proof.
  intros Hget.
  destruct (run_registered ops init_memory eq_refl init_registered) as [Hmem Hreg].
  rewrite (get_memory json_loads client_get) in Hget by done. simpl in Hget.
  exists (elements (key_registry (run ops init_memory))).
  unfold CacheManager.list_keys. rewrite Hmem. split; [done |].
  apply elem_of_elements, Hreg.
  destruct (memory_cache (run ops init_memory) !! key); [eauto | discriminate].
Qed.

(** X11.  [clear_all] empties the cache: on a manager without
    IronCache, after any calls of its methods, [clear_all()] does not
    raise and leaves no entry and no registered key, so that every
    [get] returns [None]. *)
Theorem clear_all_empties (ops : list op) now :
  ∃ self',
    clear_all now (run ops init_memory) = (Return tt, self')
    ∧ memory_cache self' = ∅
    ∧ key_registry self' = ∅
    ∧ ∀ now' key, get now' key self' = (Return None, self').
Proof.
  destruct (run_registered ops init_memory eq_refl init_registered) as [Hmem Hreg].
  unfold CacheManager.clear_all, CacheManager.list_keys. rewrite Hmem.
  destruct (remove_keys_memory client_delete (λ _, true) now
              (elements (key_registry (run ops init_memory))) _ Hmem)
    as (self' & Hrun & Hia & Hcl & _ & Hr & Hm).
  exists self'. split; [exact Hrun |].
  assert (Hempty : memory_cache self' = ∅).
  { apply map_eq. intros k. rewrite Hm, lookup_empty.
    destruct (decide (k ∈ elements (key_registry (run ops init_memory)) ∧ true = true))
      as [_|Hno]; [done |].
    destruct (memory_cache (run ops init_memory) !! k) eqn:Hk; [| done].
    exfalso. apply Hno. split; [| done]. apply elem_of_elements, Hreg. eauto. }
  split; [exact Hempty |]. split.
  - apply elem_of_equiv_empty_L. intros k Hk. apply Hr in Hk as [Hk Hnot].
    apply Hnot. split; [by apply elem_of_elements | done].
  - intros now' key. rewrite (get_memory json_loads client_get)
      by (unfold iron_client in *; by rewrite Hia, Hcl).
    by rewrite Hempty, lookup_empty.
Qed.

(** With IronCache configured the manager stays so, and no method
    takes a key out of the registry or touches the local store. *)
Lemma remove_keys_iron (hit : string → bool) now (keys : list string) self r :
  iron_client self = Some r →
  is_Some (iron_client (snd (remove_keys hit now keys self)))
  ∧ key_registry (snd (remove_keys hit now keys self)) = key_registry self.
Proof.
  revert self r. induction keys as [|key keys IH]; intros self r Hiron; simpl; [eauto |].
  destruct (hit key); [| by eapply IH].
  rewrite Hiron.
  assert (Hav : iron_available self = true)
    by (unfold iron_client in Hiron; by destruct (iron_available self)).
  destruct (client_delete now (cache_name self) key r) as [[[]|e] r'].
  - apply (IH (with_client self r') r'). unfold iron_client. simpl. by rewrite Hav.
  - simpl. unfold iron_client. simpl. rewrite Hav. eauto.
Qed.

Lemma step_iron (o : op) self r :
  iron_client self = Some r →
  is_Some (iron_client (step json_dumps json_loads client_get client_put client_delete
                          client_list_keys self o))
  ∧ key_registry self
    ⊆ key_registry (step json_dumps json_loads client_get client_put client_delete
                      client_list_keys self o).
Proof.
  intros Hiron.
  assert (Hav : iron_available self = true)
    by (unfold iron_client in Hiron; by destruct (iron_available self)).
  assert (Hwith : ∀ r', iron_client (with_client self r') = Some r')
    by (intros r'; unfold iron_client; simpl; by rewrite Hav).
  assert (Hfin : ∀ r', is_Some (iron_client (with_client self r'))
                       ∧ key_registry self ⊆ key_registry (with_client self r'))
    by (intros r'; rewrite Hwith; split; [eauto | done]).
  destruct o as [now key|now key v ttl tags|now key|now tag|now]; simpl.
  - unfold CacheManager.get, get_try. rewrite Hiron.
    destruct (client_get now (cache_name self) key r) as [[it|e] r']; [| apply Hfin].
    destruct it as [[payload]|]; [| apply Hfin].
    destruct (String.eqb payload ""); [apply Hfin |].
    destruct (json_loads payload); apply Hfin.
  - unfold CacheManager.set, set_try. rewrite Hiron.
    destruct (json_dumps v) as [payload|e]; [| simpl; rewrite Hiron; eauto].
    destruct (client_put now (cache_name self) key payload ttl r) as [[[]|e] r'];
      [| apply Hfin].
    simpl. split; [unfold iron_client; simpl; rewrite Hav; eauto |].
    intros k Hk. apply elem_of_union. by right.
  - unfold CacheManager.delete, delete_try. rewrite Hiron.
    destruct (client_delete now (cache_name self) key r) as [o r']. apply Hfin.
  - unfold CacheManager.invalidate_by_tag, CacheManager.list_keys. rewrite Hiron.
    destruct client_list_keys as [lk|].
    + destruct (lk now (cache_name self) r) as [[keys|e] r']; [| apply Hfin].
      destruct (remove_keys_iron (contains tag) now keys _ r' (Hwith r')) as [H1 H2].
      split; [exact H1 |]. by rewrite H2.
    + destruct (remove_keys_iron (contains tag) now (elements (key_registry self))
                  _ r Hiron) as [H1 H2].
      split; [exact H1 |]. by rewrite H2.
  - unfold CacheManager.clear_all, CacheManager.list_keys. rewrite Hiron.
    destruct client_list_keys as [lk|].
    + destruct (lk now (cache_name self) r) as [[keys|e] r']; [| apply Hfin].
      destruct (remove_keys_iron (λ _, true) now keys _ r' (Hwith r')) as [H1 H2].
      split; [exact H1 |]. by rewrite H2.
    + destruct (remove_keys_iron (λ _, true) now (elements (key_registry self))
                  _ r Hiron) as [H1 H2].
      split; [exact H1 |]. by rewrite H2.
Qed.

(** X12.  With IronCache configured the key registry only grows:
    whatever the service answers, no call of [get], [set], [delete],
    [invalidate_by_tag] or [clear_all] takes a key out of
    [key_registry] (the two bulk methods delete at the service only,
    without [key_registry.discard]). *)
Theorem iron_registry_only_grows (ops : list op) self r :
  iron_client self = Some r →
  key_registry self ⊆ key_registry (run ops self).
Proof.
  revert self r. induction ops as [|o ops IH]; intros self r Hiron; [done |].
  unfold CacheManagerMore.run. simpl.
  destruct (step_iron o self r Hiron) as [[r' Hiron'] Hsub].
  etrans; [exact Hsub |]. by eapply IH.
Qed.

(** The removal loop against a service whose [delete] raises: the first
    selected key ends it. *)
Lemma remove_keys_raises (hit : string → bool) now (keys : list string) self r key :
  iron_client self = Some r →
  (∀ k r0, ∃ e r1, client_delete now (cache_name self) k r0 = (Raise e, r1)) →
  key ∈ keys → hit key = true →
  ∃ e self', remove_keys hit now keys self = (Raise e, self')
             ∧ key_registry self' = key_registry self.
Proof.
  intros Hiron Hdown Hin Hhit. induction keys as [|k keys IH]; [inversion Hin |].
  simpl. destruct (hit k) eqn:Hk.
  - rewrite Hiron. destruct (Hdown k r) as (e & r1 & ->). eauto.
  - apply IH. inversion Hin; subst; [congruence | done].
Qed.

(** X13.  [invalidate_by_tag] has no [try]: with IronCache configured
    (and a client without [list_keys], so that the registry is used),
    when the service cannot delete and some registered key contains the
    tag, the exception of [client.delete] reaches the caller; the
    registry is left as it was. *)
Theorem invalidate_by_tag_propagates now tag key self r :
  iron_client self = Some r →
  (∀ k r0, ∃ e r1, client_delete now (cache_name self) k r0 = (Raise e, r1)) →
  key ∈ key_registry self →
  contains tag key = true →
  ∃ e self',
    CacheManager.invalidate_by_tag client_delete None now tag self = (Raise e, self')
    ∧ key_registry self' = key_registry self.
Proof.
  intros Hiron Hdown Hin Hhit.
  unfold CacheManager.invalidate_by_tag, CacheManager.list_keys. rewrite Hiron.
  eapply remove_keys_raises; eauto. by apply elem_of_elements.
Qed.

(** X14.  What the caching decorator saves: on the process-local
    store, when the lookup misses and the wrapped function returns a
    value other than [None], the wrapper returns that value and stores
    it (for an expiry that is a [datetime]); a later call before the
    expiry returns the same value without running the wrapped
    function, and a call from the expiry on runs it again. *)
Theorem cache_response_hit {W : Type} (ttl : Z) key
    (func : W → outcome (option V) * W) now1 now2 self (w w1 : W) (v : V) :
  iron_client self = None →
  fst (get now1 key self) = Return None →
  func w = (Return (Some v), w1) →
  datetime_min ≤ now2 ≤ datetime_max →
  datetime_min ≤ now2 + ttl * 1000000 ≤ datetime_max →
  ∃ self1,
    wrapper ttl key func now1 now2 self w = (Return (Some v), self1, w1)
    ∧ (∀ (func' : W → outcome (option V) * W) now3 now4 w',
         now3 < now2 + ttl * 1000000 →
         wrapper ttl key func' now3 now4 self1 w' = (Return (Some v), self1, w'))
    ∧ (∀ (func' : W → outcome (option V) * W) now3 now4 w',
         now2 + ttl * 1000000 ≤ now3 →
         fst (fst (wrapper ttl key func' now3 now4 self1 w')) = fst (func' w')
         ∧ snd (wrapper ttl key func' now3 now4 self1 w') = snd (func' w')).
Proof.
  intros Hmem Hmiss Hfunc Hnow Hexp.
  rewrite (get_memory json_loads client_get) in Hmiss by done. simpl in Hmiss.
  injection Hmiss as Hmiss.
  set (self1 := set now2 key (Some v) ttl None self).
  assert (Hmem1 : iron_client self1 = None) by (by apply set_memory_cases).
  assert (Hentry : memory_cache self1 !! key = Some (Entry (Some v) (now2 + ttl * 1000000))).
  { unfold self1. rewrite (set_memory json_dumps client_put) by done.
    simpl. apply lookup_insert_eq. }
  exists self1. split; [| split].
  - unfold CacheManagerMore.wrapper. rewrite (get_memory json_loads client_get) by done.
    rewrite Hmiss, Hfunc. done.
  - intros func' now3 now4 w' Hlt. unfold CacheManagerMore.wrapper.
    rewrite (get_memory json_loads client_get) by done. rewrite Hentry. simpl.
    destruct (Z.gtb_spec (now2 + ttl * 1000000) now3); [done | lia].
  - intros func' now3 now4 w' Hge. unfold CacheManagerMore.wrapper.
    rewrite (get_memory json_loads client_get) by done. rewrite Hentry. simpl.
    destruct (Z.gtb_spec (now2 + ttl * 1000000) now3); [lia |].
    by destruct (func' w') as [[result|e] w2].
Qed.

(** X15.  A result [None] is never served from the cache: on the
    process-local store, after a miss on which the wrapped function
    returned [None], every later call runs the wrapped function
    again. *)
Theorem cache_response_none_not_cached {W : Type} (ttl : Z) key
    (func func' : W → outcome (option V) * W) now1 now2 now3 now4 self (w w1 w' : W) :
  iron_client self = None →
  fst (get now1 key self) = Return None →
  func w = (Return None, w1) →
  now1 ≤ now3 →
  ∃ self1,
    wrapper ttl key func now1 now2 self w = (Return None, self1, w1)
    ∧ fst (fst (wrapper ttl key func' now3 now4 self1 w')) = fst (func' w')
    ∧ snd (wrapper ttl key func' now3 now4 self1 w') = snd (func' w').
Proof.
  intros Hmem Hmiss Hfunc Hclock.
  rewrite (get_memory json_loads client_get) in Hmiss by done. simpl in Hmiss.
  injection Hmiss as Hmiss.
  set (self1 := set now2 key None ttl None self).
  assert (Hmem1 : iron_client self1 = None) by (by apply set_memory_cases).
  exists self1. split.
  - unfold CacheManagerMore.wrapper. rewrite (get_memory json_loads client_get) by done.
    rewrite Hmiss, Hfunc. done.
  - unfold CacheManagerMore.wrapper. rewrite (get_memory json_loads client_get) by done.
    assert (Hnone : match memory_cache self1 !! key with
                    | Some e => if expires_at e >? now3 then value e else None
                    | None => None
                    end = None).
    { unfold self1, CacheManager.set, set_try. rewrite Hmem.
      destruct (plus_seconds now2 ttl) as [expiry|]; simpl.
      - rewrite lookup_insert_eq. simpl. by destruct (expiry >? now3).
      - destruct (memory_cache self !! key) as [e|]; [| done].
        destruct (Z.gtb_spec (expires_at e) now1) as [Hlive|Hdead].
        + rewrite Hmiss. by destruct (expires_at e >? now3).
        + destruct (Z.gtb_spec (expires_at e) now3); [lia | done]. }
    rewrite Hnone. by destruct (func' w') as [[result|e] w2].
Qed.

End CacheMoreFacts.

(** ** More on the rate limiter *)

Section RateLimitMoreFacts.

Import AuthMiddleware.

Implicit Types (d : db) (t : time) (ip ep : string) (c : clock).

Lemma minus_window t (w : Z) :
  0 ≤ w → w / 86400 ≤ 999999999 →
  datetime_min + w * 1000000 ≤ t → t ≤ datetime_max →
  minus_seconds t w = Some (t - w * 1000000).
Proof.
  intros Hw Hdays Hmin Hmax. unfold minus_seconds, timedelta_seconds.
  assert (0 ≤ w / 86400) by (apply Z.div_pos; lia).
  destruct (Z.leb_spec (-999999999) (w / 86400)); [| lia].
  destruct (Z.leb_spec (w / 86400) 999999999); [| lia].
  simpl. unfold datetime_add.
  destruct (Z.leb_spec datetime_min (t + - (w * 1000000))); [| lia].
  destruct (Z.leb_spec (t + - (w * 1000000)) datetime_max); [| lia].
  simpl. f_equal.
Qed.

(** The rows of [n] counted requests. *)
Lemma count_all ip ep t bl (rl : list rate_row) (xs : list time) :
  Forall (λ r, rate_ip_address r = ip → rate_endpoint r = ep → created_at r < t) rl →
  Forall (λ x, t ≤ x) xs →
  get_rate_limit_count ip ep t (Db bl (rl ++ (RateRow ip ep 1 <$> xs)))
  = Z.of_nat (length xs).
Proof.
  intros Hold Hxs. rewrite count_app, count_old by done.
  induction Hxs as [|x xs Hx _ IH]; [done |].
  change (RateRow ip ep 1 <$> x :: xs)
    with ([RateRow ip ep 1 x] ++ (RateRow ip ep 1 <$> xs)).
  rewrite count_app, count_one, decide_True by done.
  simpl length. lia.
Qed.

Lemma calls_app limits req endpoint (cs1 cs2 : list clock) d :
  calls limits req endpoint (cs1 ++ cs2) d =
    let '(vs1, d1) := calls limits req endpoint cs1 d in
    let '(vs2, d2) := calls limits req endpoint cs2 d1 in
    (vs1 ++ vs2, d2).
Proof.
  revert d. induction cs1 as [|c cs1 IH]; intros d; simpl.
  - by destruct (calls limits req endpoint cs2 d).
  - destruct (check_rate_limit limits c req endpoint d) as [v d1].
    rewrite IH. destruct (calls limits req endpoint cs1 d1) as [vs1 d2].
    by destruct (calls limits req endpoint cs2 d2).
Qed.

Section AnyPolicy.

Variable limits : gmap string policy.
Variable req : request.
Variable endpoint : option string.
Variable fallback : policy.

Let ip := default "unknown" (client_host req).
Let ep := default (url_path req) endpoint.
Let p := default fallback (limits !! ep).

Hypothesis Hdefault : limits !! "default" = Some fallback.
Hypothesis Hwindow : 0 ≤ window p.
Hypothesis Hdays : window p / 86400 ≤ 999999999.

(** A call that finds no block: the count of the window decides. *)
Lemma check_unblocked t d :
  Forall (λ r, block_ip_address r ≠ ip) (ip_blocklist d) →
  datetime_min + window p * 1000000 ≤ t → t ≤ datetime_max →
  check_rate_limit limits (utc_clock t) req endpoint d
  = if get_rate_limit_count ip ep (t - window p * 1000000) d >=? requests p
    then (Rejected 429 "Rate limit exceeded",
          block_ip (utc_clock t) ip "rate_limit_exceeded" d)
    else (Allowed, increment_rate_limit (utc_clock t) ip ep d).
Proof.
  intros Hnb Hmin Hmax. unfold check_rate_limit.
  fold ip. fold ep. rewrite is_ip_blocked_clear by done.
  rewrite Hdefault. fold p. simpl. by rewrite minus_window.
Qed.

(** Calls inside one window, as long as the policy has room. *)
Lemma calls_within_policy lo bl rl (ts seen : list time) :
  Forall (λ r, block_ip_address r ≠ ip) bl →
  Forall (λ r, rate_ip_address r = ip → rate_endpoint r = ep →
               created_at r < lo - window p * 1000000) rl →
  datetime_min + window p * 1000000 ≤ lo →
  lo + window p * 1000000 ≤ datetime_max →
  Forall (λ x, lo ≤ x ≤ lo + window p * 1000000) (seen ++ ts) →
  Z.of_nat (length seen + length ts) ≤ requests p →
  calls limits req endpoint (utc_clock <$> ts)
    (Db bl (rl ++ (RateRow ip ep 1 <$> seen)))
  = (replicate (length ts) Allowed,
     Db bl (rl ++ (RateRow ip ep 1 <$> (seen ++ ts)))).
Proof.
  intros Hnb Hold Hmin Hmax. revert seen.
  induction ts as [|t ts IH]; intros seen Hin Hroom.
  - simpl. by rewrite app_nil_r.
  - pose proof Hin as Hin'. apply Forall_app in Hin' as [Hseen Hts].
    apply Forall_cons in Hts as [Ht Hts].
    simpl fmap. rewrite calls_cons, check_unblocked by (done || lia).
    rewrite count_all.
    + destruct (Z.geb_spec (Z.of_nat (length seen)) (requests p));
        [simpl in Hroom; lia |].
      unfold increment_rate_limit. cbn [ip_blocklist rate_limits utc utc_clock].
      rewrite <- app_assoc.
      change (RateRow ip ep 1 <$> seen) with (RateRow ip ep 1 <$> seen).
      replace ((RateRow ip ep 1 <$> seen) ++ [RateRow ip ep 1 t])
        with (RateRow ip ep 1 <$> (seen ++ [t])) by (by rewrite fmap_app).
      rewrite IH.
      * simpl. by rewrite <- app_assoc.
      * rewrite <- app_assoc. exact Hin.
      * rewrite length_app. simpl in *. lia.
    + eapply Forall_impl; [exact Hold |]. simpl. intros r Hr Hip Hep.
      specialize (Hr Hip Hep). lia.
    + eapply Forall_impl; [exact Hseen |]. simpl. intros x Hx. lia.
Qed.

End AnyPolicy.

(** X16.  The boundary for any policy.  Let the endpoint resolve to the
    policy of [N] requests per [W] seconds (its own entry of the table,
    or the ["default"] entry when it has none), on a server whose local
    time is UTC, for an IP without a block and without a counted
    request of the pair.  Of calls that all fall inside one span of [W]
    seconds, the first [N] are allowed and the next one is rejected
    with "Rate limit exceeded". *)
Theorem rate_limit_any_policy (limits : gmap string policy) (req : request)
    (endpoint : option string) (fallback : policy) (d0 : db)
    (lo : time) (ts : list time) (t : time) :
  let ip := default "unknown" (client_host req) in
  let ep := default (url_path req) endpoint in
  let p := default fallback (limits !! ep) in
  limits !! "default" = Some fallback →
  0 ≤ window p →
  window p / 86400 ≤ 999999999 →
  Forall (λ r, block_ip_address r ≠ ip) (ip_blocklist d0) →
  Forall (λ r, rate_ip_address r = ip → rate_endpoint r = ep →
               created_at r < lo - window p * 1000000) (rate_limits d0) →
  datetime_min + window p * 1000000 ≤ lo →
  lo + window p * 1000000 ≤ datetime_max →
  Forall (λ x, lo ≤ x ≤ lo + window p * 1000000) (ts ++ [t]) →
  length ts = Z.to_nat (requests p) →
  fst (calls limits req endpoint (utc_clock <$> (ts ++ [t])) d0)
  = replicate (length ts) Allowed ++ [Rejected 429 "Rate limit exceeded"].
Proof.
  cbv zeta. intros Hdef Hw Hdays Hnb Hold Hmin Hmax Hin Hlen.
  destruct d0 as [bl rl]. cbn [ip_blocklist rate_limits] in Hnb, Hold.
  pose proof Hin as Hin'. apply Forall_app in Hin' as [Hts Ht].
  apply Forall_cons in Ht as [Ht _].
  rewrite fmap_app, calls_app.
  match type of Hlen with _ = Z.to_nat ?n => destruct (decide (0 ≤ n)) as [Hpos|Hneg] end.
  - pose proof (calls_within_policy limits req endpoint fallback Hdef Hw Hdays
                  lo bl rl ts [] Hnb Hold Hmin Hmax Hts) as Hcalls.
    simpl in Hcalls. rewrite app_nil_r in Hcalls. rewrite Hcalls by lia.
    simpl fmap. rewrite calls_cons.
    rewrite (check_unblocked limits req endpoint fallback Hdef Hw Hdays)
      by (done || lia).
    rewrite count_all.
    + match goal with |- context [?a >=? ?b] => destruct (Z.geb_spec a b) end;
        [done | lia].
    + eapply Forall_impl; [exact Hold |]. simpl. intros r Hr Hip Hep.
      specialize (Hr Hip Hep). lia.
    + eapply Forall_impl; [exact Hts |]. simpl. intros x Hx. lia.
  - assert (ts = []) as -> by (apply length_zero_iff_nil; lia).
    simpl. rewrite (check_unblocked limits req endpoint fallback Hdef Hw Hdays)
      by (done || lia).
    rewrite count_old.
    + match goal with |- context [?a >=? ?b] => destruct (Z.geb_spec a b) end;
        [done | lia].
    + eapply Forall_impl; [exact Hold |]. simpl. intros r Hr Hip Hep.
      specialize (Hr Hip Hep). lia.
Qed.

(** After [upsert] the first row of the IP is the row written, and the
    rows of the other IPs are as before. *)
Lemma upsert_filter_head (row : block_row) (rows : list block_row) :
  ∃ rest,
    filter (λ r, block_ip_address r = block_ip_address row) (upsert row rows)
    = row :: rest.
Proof.
  induction rows as [|r rows [rest IH]]; simpl.
  - exists []. by rewrite filter_cons_True, filter_nil.
  - destruct (decide (block_ip_address r = block_ip_address row)) as [Heq|Hne].
    + eexists. by rewrite filter_cons_True.
    + exists rest. by rewrite filter_cons_False.
Qed.

Lemma upsert_filter_other (row : block_row) (rows : list block_row) ip' :
  ip' ≠ block_ip_address row →
  filter (λ r, block_ip_address r = ip') (upsert row rows)
  = filter (λ r, block_ip_address r = ip') rows.
Proof.
  intros Hne. induction rows as [|r rows IH]; simpl.
  - by rewrite filter_cons_False, filter_nil.
  - destruct (decide (block_ip_address r = block_ip_address row)) as [Heq|Hr].
    + rewrite !filter_cons_False by congruence. done.
    + rewrite !filter_cons. by rewrite IH.
Qed.

(** What a rejection for exceeding the limit tells about the call. *)
Lemma rejected_exceeded limits c req endpoint d d' :
  check_rate_limit limits c req endpoint d = (Rejected 429 "Rate limit exceeded", d') →
  ∃ d1,
    is_ip_blocked c (default "unknown" (client_host req)) d = (false, d1)
    ∧ d' = block_ip c (default "unknown" (client_host req)) "rate_limit_exceeded" d1.
Proof.
  unfold check_rate_limit.
  destruct (is_ip_blocked c (default "unknown" (client_host req)) d) as [[|] d1];
    [discriminate |].
  destruct (limits !! "default") as [fallback|]; [| discriminate].
  destruct (minus_seconds _ _) as [ws|]; [| discriminate].
  destruct (_ >=? _); [| discriminate].
  intros [= <-]. eauto.
Qed.

Lemma block_ip_rows c ip reason d :
  datetime_min ≤ utc c → utc c + 86400 * 1000000 ≤ datetime_max →
  block_ip c ip reason d
  = Db (upsert (BlockRow ip reason (utc c + 86400 * 1000000) (utc c)) (ip_blocklist d))
       (rate_limits d).
Proof. intros Hmin Hmax. unfold block_ip. by rewrite plus_block_duration. Qed.

(** X17.  The block covers every endpoint.  Once a call has been
    rejected with "Rate limit exceeded", every call from the same IP,
    for whatever endpoint and under whatever policy table, is rejected
    with "IP address blocked" until [ip_block_duration] (86400 seconds)
    has passed, and such a call leaves the database as it is: it
    counts no request and does not prolong the block. *)
Theorem block_covers_every_endpoint (limits : gmap string policy) (c : clock)
    (req : request) (endpoint : option string) (d d' : db) :
  check_rate_limit limits c req endpoint d = (Rejected 429 "Rate limit exceeded", d') →
  datetime_min ≤ utc c →
  utc c + 86400 * 1000000 ≤ datetime_max →
  ∀ (limits' : gmap string policy) (c' : clock) (req' : request)
    (endpoint' : option string),
    client_host req' = client_host req →
    utc c' < utc c + 86400 * 1000000 →
    check_rate_limit limits' c' req' endpoint' d'
    = (Rejected 429 "IP address blocked", d').
Proof.
  intros Hrej Hmin Hmax limits' c' req' endpoint' Hhost Hbefore.
  destruct (rejected_exceeded _ _ _ _ _ _ Hrej) as (d1 & _ & ->).
  rewrite block_ip_rows by done.
  unfold check_rate_limit, is_ip_blocked. rewrite Hhost. cbn [ip_blocklist].
  destruct (upsert_filter_head
              (BlockRow (default "unknown" (client_host req)) "rate_limit_exceeded"
                 (utc c + 86400 * 1000000) (utc c)) (ip_blocklist d1)) as [rest Hrest].
  cbn [block_ip_address] in Hrest. rewrite Hrest. cbn [blocked_until].
  destruct (Z.gtb_spec (utc c + 86400 * 1000000) (utc c')); [done | lia].
Qed.

(** X18.  An expired block is deleted at the next lookup.  After a
    rejection with "Rate limit exceeded", the first [is_ip_blocked] for
    that IP made once [ip_block_duration] has passed answers [False]
    and deletes the rows of the IP from [ip_blocklist]: none is left,
    the rows of the other IPs and the request counters are as they
    were, and a further lookup changes nothing. *)
Theorem expired_block_deleted (limits : gmap string policy) (c : clock)
    (req : request) (endpoint : option string) (d d' : db) (c' : clock) :
  let ip := default "unknown" (client_host req) in
  check_rate_limit limits c req endpoint d = (Rejected 429 "Rate limit exceeded", d') →
  datetime_min ≤ utc c →
  utc c + 86400 * 1000000 ≤ datetime_max →
  utc c + 86400 * 1000000 ≤ utc c' →
  ∃ d'',
    is_ip_blocked c' ip d' = (false, d'')
    ∧ Forall (λ r, block_ip_address r ≠ ip) (ip_blocklist d'')
    ∧ (∀ ip', ip' ≠ ip →
         filter (λ r, block_ip_address r = ip') (ip_blocklist d'')
         = filter (λ r, block_ip_address r = ip') (ip_blocklist d'))
    ∧ rate_limits d'' = rate_limits d'
    ∧ ∀ c'', is_ip_blocked c'' ip d'' = (false, d'').
Proof.
  intros ip Hrej Hmin Hmax Hafter.
  destruct (rejected_exceeded _ _ _ _ _ _ Hrej) as (d1 & _ & ->). fold ip.
  rewrite block_ip_rows by done.
  set (row := BlockRow ip "rate_limit_exceeded" (utc c + 86400 * 1000000) (utc c)).
  destruct (upsert_filter_head row (ip_blocklist d1)) as [rest Hrest].
  cbn [block_ip_address row] in Hrest.
  set (bl := upsert row (ip_blocklist d1)) in *.
  assert (Hclean : Forall (λ r, block_ip_address r ≠ ip)
                     (filter (λ r, block_ip_address r ≠ ip) bl)).
  { apply Forall_forall. intros r Hr. by apply list_elem_of_filter in Hr as [? _]. }
  exists (Db (filter (λ r, block_ip_address r ≠ ip) bl) (rate_limits d1)).
  split; [| split; [exact Hclean | split; [| split; [done |]]]].
  - unfold is_ip_blocked. cbn [ip_blocklist rate_limits]. rewrite Hrest.
    cbn [blocked_until row].
    destruct (Z.gtb_spec (utc c + 86400 * 1000000) (utc c')); [lia | done].
  - intros ip' Hne. cbn [ip_blocklist]. rewrite list_filter_filter.
    apply list_filter_iff. intros r. split; [by intros [? _] | intros Hr].
    split; [done | congruence].
  - intros c''. by apply is_ip_blocked_clear.
Qed.

(** What a call looks at for an IP: the rows of the IP in the two
    tables. *)
Lemma count_view ip ep t d1 d2 :
  filter (λ r, rate_ip_address r = ip) (rate_limits d1)
  = filter (λ r, rate_ip_address r = ip) (rate_limits d2) →
  get_rate_limit_count ip ep t d1 = get_rate_limit_count ip ep t d2.
Proof.
  intros Hview. unfold get_rate_limit_count.
  assert (Hsplit : ∀ l : list rate_row,
            filter (λ r, rate_ip_address r = ip ∧ rate_endpoint r = ep ∧ t ≤ created_at r) l
            = filter (λ r, rate_ip_address r = ip ∧ rate_endpoint r = ep ∧ t ≤ created_at r)
                (filter (λ r, rate_ip_address r = ip) l)).
  { intros l. rewrite list_filter_filter. apply list_filter_iff. intros r. tauto. }
  by rewrite (Hsplit (rate_limits d1)), (Hsplit (rate_limits d2)), Hview.
Qed.

Lemma is_ip_blocked_rate_limits c ip d :
  rate_limits (snd (is_ip_blocked c ip d)) = rate_limits d.
Proof.
  unfold is_ip_blocked.
  destruct (filter _ (ip_blocklist d)) as [|row rest]; [done |].
  by destruct (blocked_until row >? utc c).
Qed.

Lemma verdict_view limits c req endpoint d1 d2 :
  let ip := default "unknown" (client_host req) in
  filter (λ r, block_ip_address r = ip) (ip_blocklist d1)
  = filter (λ r, block_ip_address r = ip) (ip_blocklist d2) →
  filter (λ r, rate_ip_address r = ip) (rate_limits d1)
  = filter (λ r, rate_ip_address r = ip) (rate_limits d2) →
  fst (check_rate_limit limits c req endpoint d1)
  = fst (check_rate_limit limits c req endpoint d2).
Proof.
  intros ip Hb Hr. unfold check_rate_limit. fold ip.
  pose proof (is_ip_blocked_rate_limits c ip d1) as Hr1.
  pose proof (is_ip_blocked_rate_limits c ip d2) as Hr2.
  assert (Hsame : fst (is_ip_blocked c ip d1) = fst (is_ip_blocked c ip d2)).
  { unfold is_ip_blocked. rewrite Hb.
    destruct (filter _ (ip_blocklist d2)) as [|row rest]; [done |].
    by destruct (blocked_until row >? utc c). }
  destruct (is_ip_blocked c ip d1) as [b1 e1], (is_ip_blocked c ip d2) as [b2 e2].
  simpl in Hsame, Hr1, Hr2. subst b2. destruct b1; [done |].
  destruct (limits !! "default") as [fallback|]; [| done].
  destruct (minus_seconds _ _) as [ws|]; [| done].
  rewrite (count_view ip _ ws e1 e2) by (by rewrite Hr1, Hr2).
  by destruct (_ >=? _).
Qed.

Lemma call_keeps_view limits c req endpoint d ip' :
  ip' ≠ default "unknown" (client_host req) →
  filter (λ r, block_ip_address r = ip')
    (ip_blocklist (snd (check_rate_limit limits c req endpoint d)))
  = filter (λ r, block_ip_address r = ip') (ip_blocklist d)
  ∧ filter (λ r, rate_ip_address r = ip')
      (rate_limits (snd (check_rate_limit limits c req endpoint d)))
    = filter (λ r, rate_ip_address r = ip') (rate_limits d).
Proof.
  intros Hne. set (ip := default "unknown" (client_host req)) in *.
  assert (Hguard : filter (λ r, block_ip_address r = ip')
                     (ip_blocklist (snd (is_ip_blocked c ip d)))
                   = filter (λ r, block_ip_address r = ip') (ip_blocklist d)).
  { unfold is_ip_blocked.
    destruct (filter (λ r, block_ip_address r = ip) (ip_blocklist d)) as [|row rest];
      [done |].
    destruct (blocked_until row >? utc c); [done |]. simpl.
    rewrite list_filter_filter. apply list_filter_iff. intros r.
    split; [by intros [? _] | intros Hr; split; [done | congruence]]. }
  pose proof (is_ip_blocked_rate_limits c ip d) as Hrates.
  unfold check_rate_limit. fold ip.
  destruct (is_ip_blocked c ip d) as [[|] d1]; simpl in *; [by rewrite Hrates |].
  destruct (limits !! "default") as [fallback|]; [| simpl; by rewrite Hrates].
  destruct (minus_seconds _ _) as [ws|]; [| simpl; by rewrite Hrates].
  destruct (_ >=? _); simpl.
  - unfold block_ip. destruct (plus_seconds _ _) as [until|]; [| simpl; by rewrite Hrates].
    simpl. rewrite Hrates. split; [| done].
    rewrite upsert_filter_other by done. exact Hguard.
  - split; [done |]. rewrite Hrates.
    rewrite filter_app, filter_cons_False, filter_nil by (simpl; congruence).
    by rewrite app_nil_r.
Qed.

(** X19.  The limiter keeps the IPs apart.  Calls from one IP, however
    many, for whatever endpoints and with whatever verdicts (also when
    they block that IP), do not change the verdict of a call from
    another IP. *)
Theorem other_ip_unaffected (limits limits' : gmap string policy)
    (req req' : request) (endpoint endpoint' : option string)
    (clocks : list clock) (c' : clock) (d : db) :
  default "unknown" (client_host req') ≠ default "unknown" (client_host req) →
  fst (check_rate_limit limits' c' req' endpoint'
         (snd (calls limits req endpoint clocks d)))
  = fst (check_rate_limit limits' c' req' endpoint' d).
Proof.
  intros Hne. apply verdict_view.
  - revert d. induction clocks as [|c clocks IH]; intros d; [done |].
    simpl. destruct (check_rate_limit limits c req endpoint d) as [v d1] eqn:Hcall.
    specialize (IH d1). destruct (calls limits req endpoint clocks d1) as [vs d2].
    simpl in *. rewrite IH.
    pose proof (proj1 (call_keeps_view limits c req endpoint d _ Hne)) as Hk.
    by rewrite Hcall in Hk.
  - revert d. induction clocks as [|c clocks IH]; intros d; [done |].
    simpl. destruct (check_rate_limit limits c req endpoint d) as [v d1] eqn:Hcall.
    specialize (IH d1). destruct (calls limits req endpoint clocks d1) as [vs d2].
    simpl in *. rewrite IH.
    pose proof (proj2 (call_keeps_view limits c req endpoint d _ Hne)) as Hk.
    by rewrite Hcall in Hk.
Qed.

(** X20.  Without a ["default"] entry the limiter is open.  The
    fallback [RATE_LIMITS['default']] is evaluated before the lookup of
    the endpoint, so with a table that lacks the entry the [KeyError]
    reaches the [except] branch on every call: for an IP without a
    block every call is allowed, also for an endpoint that has a policy
    of its own, and nothing is counted. *)
Theorem open_without_default (limits : gmap string policy) (req : request)
    (endpoint : option string) (clocks : list clock) (d : db) :
  limits !! "default" = None →
  Forall (λ r, block_ip_address r ≠ default "unknown" (client_host req))
    (ip_blocklist d) →
  calls limits req endpoint clocks d = (replicate (length clocks) Allowed, d).
Proof.
  intros Hnone Hnb. induction clocks as [|c clocks IH]; [done |].
  rewrite calls_cons. unfold check_rate_limit.
  rewrite is_ip_blocked_clear by done. rewrite Hnone, IH. done.
Qed.

End RateLimitMoreFacts.

(** ** The further properties on concrete inputs *)

Section MoreExamples.

Import LoadBalancer LoadBalancerInv LoadBalancerMore.

Lemma registered_service (insts : list string) (alg : string) :
  services (run [Register "svc" insts alg] init) !! "svc"
  = Some (Service insts alg 0 (fold_left (λ m i, <[i := true]> m) insts ∅))
  ∧ active_connections (run [Register "svc" insts alg] init) !! "svc"
    = Some (od_fromkeys insts 0).
Proof. unfold run, register_service; simpl. by rewrite !lookup_insert_eq. Qed.

Lemma fallback_always_first_witness :
  let ops := [Register "svc" ["a"; "b"] "weighted"] in
  (algorithm <$> services (run ops init) !! "svc") = Some "weighted"
  ∧ fst (next_n 3 "svc" (run ops init))
    = [Return (Some "a"); Return (Some "a"); Return (Some "a")].
Proof.
  cbv zeta. destruct (registered_service ["a"; "b"] "weighted") as [Hsvc _].
  split; [by rewrite Hsvc |].
  apply (fallback_always_first _ "svc" _ "a" 3 Hsvc); done.
Defined.

Lemma round_robin_walk_witness :
  let ops := [Register "svc" ["a"; "b"; "c"] "round_robin"] in
  (algorithm <$> services (run ops init) !! "svc") = Some "round_robin"
  ∧ fst (next_n 5 "svc" (run ops init))
    = [Return (Some "a"); Return (Some "b"); Return (Some "c");
       Return (Some "a"); Return (Some "b")]
  ∧ (current_index <$> services (snd (next_n 5 "svc" (run ops init))) !! "svc") = Some 2.
Proof.
  cbv zeta. destruct (registered_service ["a"; "b"; "c"] "round_robin") as [Hsvc _].
  split; [by rewrite Hsvc |].
  destruct (round_robin_walk _ "svc" _ 5 Hsvc eq_refl) as (H1 & H2 & _); [done |].
  split; [exact H1 | by rewrite H2].
Defined.

Lemma release_undoes_selection_witness :
  let self := run [Register "svc" ["a"; "b"] "least_connections"] init in
  fst (get_next_instance "svc" self) = Return (Some "a")
  ∧ active_connections
      (release_instance "svc" "a" (snd (get_next_instance "svc" self)))
    = active_connections self.
Proof.
  cbv zeta.
  assert (Hfst : fst (get_next_instance "svc"
                        (run [Register "svc" ["a"; "b"] "least_connections"] init))
                 = Return (Some "a")).
  { vm_compute. reflexivity. }
  split; [exact Hfst |].
  apply (release_undoes_selection [Register "svc" ["a"; "b"] "least_connections"]).
  rewrite <- Hfst. apply surjective_pairing.
Defined.

Lemma selections_are_counted_witness :
  let self := run [Register "svc" ["a"; "b"] "least_connections"] init in
  active_connections self !! "svc" = Some [("a", 0); ("b", 0)]
  ∧ ∃ conns',
      active_connections (snd (next_n 5 "svc" self)) !! "svc" = Some conns'
      ∧ total conns' = 5
      ∧ length (fst (next_n 5 "svc" self)) = 5%nat.
Proof.
  cbv zeta. destruct (registered_service ["a"; "b"] "least_connections") as [Hsvc Hconns].
  split; [exact Hconns |].
  destruct (selections_are_counted _ "svc" _ 5 Hsvc) as (conns & conns' & Hc & Hc' & Htot & Hlen & _);
    [done |].
  exists conns'. split; [exact Hc' |].
  pose proof (eq_trans (eq_sym Hc) Hconns) as [= ->].
  split; [exact Htot | exact Hlen].
Defined.

End MoreExamples.

Section MoreCacheExamples.

Import CacheManager.

Lemma set_overwrites_witness :
  let self' := Scenario.set (Scenario.after 10) "k" (Some 2) 60 None
                 (Scenario.set Scenario.t0 "k" (Some 1) 3600 None init_memory) in
  Scenario.get (Scenario.after 20) "k" self' = (Return (Some 2), self')
  ∧ Scenario.get (Scenario.after 100) "k" self' = (Return None, self').
Proof.
  cbv zeta.
  pose proof (set_overwrites Scenario.dumps Scenario.loads Scenario.down_get Scenario.down_put
                Scenario.t0 (Scenario.after 10) "k" (Some 1) (Some 2) 3600 60 None None
                init_memory eq_refl) as H.
  cbv zeta in H.
  split; [apply (H ltac:(vm_compute; split; discriminate)
                   ltac:(vm_compute; split; discriminate) (Scenario.after 20))
         | apply (H ltac:(vm_compute; split; discriminate)
                   ltac:(vm_compute; split; discriminate) (Scenario.after 100))].
Defined.

Lemma other_keys_untouched_witness :
  let self := Scenario.set Scenario.t0 "a" (Some 1) 3600 None init_memory in
  fst (Scenario.get Scenario.t0 "a" self) = Return (Some 1)
  ∧ fst (Scenario.get Scenario.t0 "a"
           (Scenario.set Scenario.t0 "b" (Some 2) 3600 None self)) = Return (Some 1)
  ∧ fst (Scenario.get Scenario.t0 "a" (Scenario.delete Scenario.t0 "b" self))
    = Return (Some 1).
Proof.
  cbv zeta. split; [reflexivity |].
  destruct (other_keys_untouched Scenario.dumps Scenario.loads Scenario.down_get
              Scenario.down_put Scenario.down_delete Scenario.t0 "b" "a"
              (Scenario.set Scenario.t0 "a" (Some 1) 3600 None init_memory))
    as [Hset Hdel]; [done | reflexivity |].
  split.
  - unfold Scenario.get, Scenario.set in *. by rewrite Hset.
  - unfold Scenario.get, Scenario.delete in *. by rewrite Hdel.
Defined.

Lemma list_keys_covers_store_witness :
  let ops := [CacheManagerMore.CallSet Scenario.t0 "k" (Some 7) 3600 None;
              CacheManagerMore.CallDelete Scenario.t0 "j"] in
  fst (Scenario.get Scenario.t0 "k" (Examples.run ops init_memory)) = Return (Some 7)
  ∧ ∃ keys,
      Scenario.list_keys Scenario.t0 (Examples.run ops init_memory)
      = (Return keys, Examples.run ops init_memory)
      ∧ "k" ∈ keys.
Proof.
  cbv zeta.
  assert (Hget : fst (Scenario.get Scenario.t0 "k"
                        (Examples.run
                           [CacheManagerMore.CallSet Scenario.t0 "k" (Some 7) 3600 None;
                            CacheManagerMore.CallDelete Scenario.t0 "j"] init_memory))
                 = Return (Some 7)) by (vm_compute; reflexivity).
  split; [exact Hget |].
  exact (list_keys_covers_store Scenario.dumps Scenario.loads Scenario.down_get
           Scenario.down_put Scenario.down_delete None _ Scenario.t0 Scenario.t0 "k" 7 Hget).
Defined.

Lemma iron_registry_only_grows_witness :
  let run := CacheManagerMore.run (V := Z) (R := unit)
               Scenario.dumps Scenario.loads Scenario.down_get Scenario.down_put
               Examples.ok_delete None in
  iron_client Examples.iron_with_key = Some tt
  ∧ "user:1:profile"
    ∈ key_registry
        (run [CacheManagerMore.CallInvalidateByTag Scenario.t0 "user:1";
              CacheManagerMore.CallClearAll Scenario.t0] Examples.iron_with_key).
Proof.
  cbv zeta. split; [reflexivity |].
  apply (iron_registry_only_grows Scenario.dumps Scenario.loads Scenario.down_get
           Scenario.down_put Examples.ok_delete None _ Examples.iron_with_key tt eq_refl).
  by apply elem_of_singleton.
Defined.

Lemma invalidate_by_tag_propagates_witness :
  iron_client Examples.iron_with_key = Some tt
  ∧ contains "user:1" "user:1:profile" = true
  ∧ ∃ e self',
      CacheManager.invalidate_by_tag Scenario.down_delete None Scenario.t0 "user:1"
        Examples.iron_with_key
      = (Raise e, self').
Proof.
  split; [reflexivity |]. split; [reflexivity |].
  destruct (invalidate_by_tag_propagates Scenario.down_delete Scenario.t0 "user:1"
              "user:1:profile" Examples.iron_with_key tt eq_refl)
    as (e & self' & H & _).
  - intros k r0. eexists _, _. reflexivity.
  - by apply elem_of_singleton.
  - reflexivity.
  - eauto.
Defined.

Lemma cache_response_hit_witness :
  ∃ self1,
    Examples.wrapper 3600 "p:f:1" Examples.answer_42 Scenario.t0 Scenario.t0 init_memory 0%nat
    = (Return (Some 42), self1, 1%nat)
    ∧ Examples.wrapper 3600 "p:f:1" Examples.answer_42
        (Scenario.after 10) (Scenario.after 10) self1 1%nat
      = (Return (Some 42), self1, 1%nat).
Proof.
  destruct (cache_response_hit Scenario.dumps Scenario.loads Scenario.down_get
              Scenario.down_put 3600 "p:f:1" Examples.answer_42 Scenario.t0 Scenario.t0
              init_memory 0%nat 1%nat 42 eq_refl eq_refl eq_refl)
    as (self1 & H1 & H2 & _);
    [vm_compute; split; discriminate | vm_compute; split; discriminate |].
  exists self1. split; [exact H1 |].
  apply H2. unfold Scenario.after, Scenario.t0. lia.
Defined.

Lemma cache_response_none_not_cached_witness :
  ∃ self1,
    Examples.wrapper 3600 "p:f:1" Examples.answer_none Scenario.t0 Scenario.t0
      init_memory 0%nat
    = (Return None, self1, 1%nat)
    ∧ snd (Examples.wrapper 3600 "p:f:1" Examples.answer_none
             (Scenario.after 10) (Scenario.after 10) self1 1%nat)
      = 2%nat.
Proof.
  destruct (cache_response_none_not_cached Scenario.dumps Scenario.loads Scenario.down_get
              Scenario.down_put 3600 "p:f:1" Examples.answer_none Examples.answer_none
              Scenario.t0 Scenario.t0 (Scenario.after 10) (Scenario.after 10)
              init_memory 0%nat 1%nat 1%nat eq_refl eq_refl eq_refl)
    as (self1 & H1 & _ & H3);
    [unfold Scenario.after, Scenario.t0; lia |].
  exists self1. split; [exact H1 | exact H3].
Defined.

End MoreCacheExamples.

Section MoreRateLimitExamples.

Import AuthMiddleware.

Lemma rate_limit_any_policy_witness :
  RATE_LIMITS !! "/auth/reset-password" = Some (Policy 3 3600)
  ∧ fst (calls RATE_LIMITS Scenario.req (Some "/auth/reset-password")
           (utc_clock <$> (replicate 3 Scenario.t0 ++ [Scenario.after 1]))
           (Db [] []))
    = replicate 3 Allowed ++ [Rejected 429 "Rate limit exceeded"].
Proof.
  assert (Hdef : RATE_LIMITS !! "default" = Some (Policy 100 3600))
    by (vm_compute; reflexivity).
  split; [vm_compute; reflexivity |].
  apply (rate_limit_any_policy RATE_LIMITS Scenario.req (Some "/auth/reset-password")
           (Policy 100 3600) (Db [] []) Scenario.t0
           (replicate 3 Scenario.t0) (Scenario.after 1) Hdef).
  - vm_compute. discriminate.
  - vm_compute. discriminate.
  - constructor.
  - constructor.
  - vm_compute. discriminate.
  - vm_compute. discriminate.
  - repeat (constructor; [split; vm_compute; discriminate |]). constructor.
  - vm_compute. reflexivity.
Defined.

Lemma block_covers_every_endpoint_witness :
  let c := utc_clock (Scenario.after 1) in
  let d' := snd (check_rate_limit Scenario.limits_5_60 c Scenario.req None
                   Examples.five_requests) in
  fst (check_rate_limit Scenario.limits_5_60 c Scenario.req None Examples.five_requests)
  = Rejected 429 "Rate limit exceeded"
  ∧ check_rate_limit RATE_LIMITS (utc_clock (Scenario.after 3600)) Scenario.req
      (Some "/auth/login") d'
    = (Rejected 429 "IP address blocked", d').
Proof.
  cbv zeta.
  assert (Hfst : fst (check_rate_limit Scenario.limits_5_60 (utc_clock (Scenario.after 1))
                        Scenario.req None Examples.five_requests)
                 = Rejected 429 "Rate limit exceeded") by (vm_compute; reflexivity).
  split; [exact Hfst |].
  apply (block_covers_every_endpoint Scenario.limits_5_60 (utc_clock (Scenario.after 1))
           Scenario.req None Examples.five_requests).
  - rewrite <- Hfst. apply surjective_pairing.
  - vm_compute. discriminate.
  - vm_compute. discriminate.
  - reflexivity.
  - vm_compute. reflexivity.
Defined.

Lemma expired_block_deleted_witness :
  let c := utc_clock (Scenario.after 1) in
  let d' := snd (check_rate_limit Scenario.limits_5_60 c Scenario.req None
                   Examples.five_requests) in
  fst (check_rate_limit Scenario.limits_5_60 c Scenario.req None Examples.five_requests)
  = Rejected 429 "Rate limit exceeded"
  ∧ ∃ d'',
      is_ip_blocked (utc_clock (Scenario.after 86401)) "203.0.113.7" d' = (false, d'')
      ∧ Forall (λ r, block_ip_address r ≠ "203.0.113.7") (ip_blocklist d'')
      ∧ ∀ c'', is_ip_blocked c'' "203.0.113.7" d'' = (false, d'').
Proof.
  cbv zeta.
  assert (Hfst : fst (check_rate_limit Scenario.limits_5_60 (utc_clock (Scenario.after 1))
                        Scenario.req None Examples.five_requests)
                 = Rejected 429 "Rate limit exceeded") by (vm_compute; reflexivity).
  split; [exact Hfst |].
  destruct (expired_block_deleted Scenario.limits_5_60 (utc_clock (Scenario.after 1))
              Scenario.req None Examples.five_requests
              (snd (check_rate_limit Scenario.limits_5_60 (utc_clock (Scenario.after 1))
                      Scenario.req None Examples.five_requests))
              (utc_clock (Scenario.after 86401)))
    as (d'' & H1 & H2 & _ & _ & H5).
  - rewrite <- Hfst. apply surjective_pairing.
  - vm_compute. discriminate.
  - vm_compute. discriminate.
  - vm_compute. discriminate.
  - exists d''. split; [exact H1 |]. split; [exact H2 | exact H5].
Defined.

Lemma other_ip_unaffected_witness :
  let clocks := utc_clock <$> (Scenario.after <$> [0; 1; 2; 3; 4; 5]) in
  fst (calls Scenario.limits_5_60 Scenario.req None clocks (Db [] []))
  = replicate 5 Allowed ++ [Rejected 429 "Rate limit exceeded"]
  ∧ fst (check_rate_limit Scenario.limits_5_60 (utc_clock (Scenario.after 6))
           Examples.other_req None
           (snd (calls Scenario.limits_5_60 Scenario.req None clocks (Db [] []))))
    = Allowed.
Proof.
  cbv zeta. split; [vm_compute; reflexivity |].
  etrans.
  - apply (other_ip_unaffected Scenario.limits_5_60 Scenario.limits_5_60
             Scenario.req Examples.other_req None None).
    simpl. discriminate.
  - vm_compute. reflexivity.
Defined.

Lemma open_without_default_witness :
  Examples.limits_no_default !! "default" = None
  ∧ Examples.limits_no_default !! "/auth/reset-password" = Some (Policy 3 3600)
  ∧ calls Examples.limits_no_default Scenario.req (Some "/auth/reset-password")
      (replicate 5 (utc_clock Scenario.t0)) (Db [] [])
    = (replicate 5 Allowed, Db [] []).
Proof.
  assert (Hnone : Examples.limits_no_default !! "default" = None)
    by (vm_compute; reflexivity).
  split; [exact Hnone |]. split; [vm_compute; reflexivity |].
  apply (open_without_default Examples.limits_no_default Scenario.req
           (Some "/auth/reset-password") (replicate 5 (utc_clock Scenario.t0))
           (Db [] []) Hnone).
  constructor.
Defined.

End MoreRateLimitExamples.
